(** * s3_download.py: chunked parallel download from S3

    A shallow embedding of [download_from_s3] (src/s3_download.py) and the
    properties of its chunk planning, reassembly, worker clamping and
    error handling.

    Python integers are unbounded, so they are [Z]; [//] is floor
    division, which is [Z.div] for a non-zero divisor and raises
    [ZeroDivisionError] for a zero one.  Byte strings are [list byte].
    The local file system is a finite map from paths to file contents.
    Everything the function does to the outside world (S3 calls, file
    system calls, console output) is appended to an event trace. *)

From Stdlib Require Import ZArith Lia List Permutation Ascii String.
From stdpp Require Import base strings gmap list.

Local Open Scope Z_scope.

(** ** Values *)

Definition bytes := list Byte.byte.

(** The exceptions [download_from_s3] can see.  [ClientError] is
    botocore's, with [e.response['Error']['Code']] and [str(e)]; the
    others are built-in classes below [Exception]. *)
Inductive exn :=
| ClientError (code : string) (msg : string)
| ZeroDivisionError
| ValueError (msg : string)
| OSError (msg : string)
| Exception (msg : string).

(** [str(e)] *)
Definition str (e : exn) : string :=
  match e with
  | ClientError _ msg => msg
  | ZeroDivisionError => "integer division or modulo by zero"
  | ValueError msg => msg
  | OSError msg => msg
  | Exception msg => msg
  end.

(** [isinstance(e, ClientError)] *)
Definition is_ClientError (e : exn) : bool :=
  match e with
  | ClientError _ _ => true
  | _ => false
  end.

(** What a Python function hands back to its caller. *)
Inductive pyvalue :=
| PyNone
| PyStr (s : string).

(** ** Console output, one constructor per [print] of the source *)
Inductive log_line :=
| LogDownloading (bucket s3_key : string)
| LogDestination (destination_path : string)
| LogWorkers (num_workers chunk_size_mb : Z)
| LogFileSize (file_size : Z)
| LogSmallFile
| LogSuccess (destination_path : string)
| LogChunks (num_chunks actual_workers : Z)
| LogProgress (done : nat) (num_chunks chunk_no : Z) (len : nat)
| LogChunkError (chunk_num : Z) (msg : string)
| LogWriting (n : nat) (destination_path : string)
| LogCleanup (destination_path : string).

(** ** Observable events *)
Inductive event :=
| EHeadObject (bucket s3_key : string)
| EDownloadFile (bucket s3_key destination_path : string)
| EGetObject (bucket s3_key : string) (start_byte end_byte : Z)
| EMakedirs (folder : string)
| EThreadPool (max_workers : Z)
| EOpen (path : string)
| EWrite (path : string) (data : bytes)
| ERemove (path : string)
| EPrint (l : log_line).

Definition is_network (ev : event) : bool :=
  match ev with
  | EHeadObject _ _ | EDownloadFile _ _ _ | EGetObject _ _ _ _ => true
  | _ => false
  end.

Definition is_whole_fetch (ev : event) : bool :=
  match ev with EDownloadFile _ _ _ => true | _ => false end.

Definition is_range_fetch (ev : event) : bool :=
  match ev with EGetObject _ _ _ _ => true | _ => false end.

Definition is_pool (ev : event) : bool :=
  match ev with EThreadPool _ => true | _ => false end.

Definition is_file_write (ev : event) : bool :=
  match ev with EOpen _ | EWrite _ _ => true | _ => false end.

(** ** Paths: [os.path.basename] and [os.path.join] (posixpath) *)

Definition is_sep (c : Ascii.ascii) : bool := Ascii.eqb c "/"%char.

Fixpoint has_sep (p : string) : bool :=
  match p with
  | EmptyString => false
  | String c r => is_sep c || has_sep r
  end.

(** [p[p.rfind('/') + 1:]] *)
Fixpoint basename (p : string) : string :=
  match p with
  | EmptyString => EmptyString
  | String c r =>
      if has_sep r then basename r
      else if is_sep c then r else p
  end.

Fixpoint ends_with_sep (p : string) : bool :=
  match p with
  | EmptyString => false
  | String c EmptyString => is_sep c
  | String _ r => ends_with_sep r
  end.

Definition starts_with_sep (p : string) : bool :=
  match p with
  | String c _ => is_sep c
  | EmptyString => false
  end.

(** [os.path.join(a, b)] for two components *)
Definition path_join (a b : string) : string :=
  if starts_with_sep b then b
  else if (String.length a =? 0)%nat || ends_with_sep a then a +:+ b
  else a +:+ "/" +:+ b.


(** ** The world outside the function

    [environ_bucket] is [os.environ.get('RUNPOD_S3_BUCKET')].  The three
    S3 calls and the three fallible file-system calls are taken as they
    come: each may return or raise.  [completion_order] is the order in
    which the tasks handed to the thread pool finish. *)

Record task := Task { chunk_num : Z; start_byte : Z; end_byte : Z }.

Record world := World {
  environ_bucket : option string;
  head_object : string -> string -> exn + Z;
  get_object : string -> string -> Z -> Z -> exn + bytes;
  download_file :
    string -> string -> string -> gmap string bytes ->
    gmap string bytes * option exn;
  makedirs : string -> option exn;
  open_wb : string -> gmap string bytes -> option exn;
  write : string -> gmap string bytes -> bytes -> option exn;
  completion_order : list task -> list task
}.

(** ** A state and exception monad *)

Record state := State { fs : gmap string bytes; out : list event }.

Inductive outcome (A : Type) :=
| Return (a : A)
| Raise (e : exn).
Arguments Return {A} a.
Arguments Raise {A} e.

Definition M (A : Type) : Type := state -> outcome A * state.

Definition ret {A} (a : A) : M A := fun s => (Return a, s).

Definition raise {A} (e : exn) : M A := fun s => (Raise e, s).

Definition bind {A B} (m : M A) (k : A -> M B) : M B :=
  fun s =>
    match m s with
    | (Return a, s') => k a s'
    | (Raise e, s') => (Raise e, s')
    end.

(** [try: m  except ... as e: h e] *)
Definition try_except {A} (m : M A) (h : exn -> M A) : M A :=
  fun s =>
    match m s with
    | (Return a, s') => (Return a, s')
    | (Raise e, s') => h e s'
    end.

Notation "'let*' x := m 'in' k" := (bind m (fun x => k))
  (at level 10, x name, m at level 100, k at level 200).
Notation "m ;; k" := (bind m (fun _ => k))
  (at level 100, k at level 200, right associativity).

Definition emit (ev : event) : M unit :=
  fun s => (Return tt, State (fs s) (out s ++ [ev])).

Definition print (l : log_line) : M unit := emit (EPrint l).

Definition get_fs : M (gmap string bytes) := fun s => (Return (fs s), s).

Definition set_fs (f : gmap string bytes) : M unit :=
  fun s => (Return tt, State f (out s)).

Definition lift_result {A} (r : exn + A) : M A :=
  match r with
  | inl e => raise e
  | inr a => ret a
  end.

Definition lift_error (r : option exn) : M unit :=
  match r with
  | Some e => raise e
  | None => ret tt
  end.

(** ** Integer helpers *)

(** [a // b] *)
Definition floordiv (a b : Z) : M Z :=
  if b =? 0 then raise ZeroDivisionError else ret (a / b).

(** [range(n)] *)
Definition range (n : Z) : list Z := map Z.of_nat (seq 0 (Z.to_nat n)).

(** ** Chunk arithmetic (lines 60, 70, 71, 105, 106) *)

Definition chunk_size_of (chunk_size_mb : Z) : Z := chunk_size_mb * 1024 * 1024.

Definition num_chunks_of (file_size chunk_size : Z) : Z :=
  (file_size + chunk_size - 1) / chunk_size.

Definition actual_workers_of (num_workers num_chunks : Z) : Z :=
  Z.min num_workers num_chunks.

Definition chunk_task (file_size chunk_size i : Z) : task :=
  let start_byte := i * chunk_size in
  let end_byte := Z.min (start_byte + chunk_size - 1) (file_size - 1) in
  Task i start_byte end_byte.

(** The tasks submitted by the loop of line 104, in submission order. *)
Definition chunk_tasks (file_size chunk_size num_chunks : Z) : list task :=
  map (chunk_task file_size chunk_size) (range num_chunks).

Definition chunk_length (t : task) : Z := end_byte t - start_byte t + 1.

(** ** [parts.sort(key=lambda x: x[0])]

    [list.sort] is stable; a stable insertion sort on the chunk number
    computes the same list. *)

Fixpoint insert_part (x : Z * bytes) (l : list (Z * bytes)) : list (Z * bytes) :=
  match l with
  | [] => [x]
  | y :: l' => if x.1 <=? y.1 then x :: y :: l' else y :: insert_part x l'
  end.

Definition sort_parts (l : list (Z * bytes)) : list (Z * bytes) :=
  foldr insert_part [] l.

(** ** The function *)

Section Download.

Variable w : world.

(** Lines 79-99.  [parts] is the shared list; the body runs under the
    lock from the append to the progress line, so a task is one step. *)
Definition download_chunk (bucket s3_key : string) (num_chunks : Z)
    (parts : list (Z * bytes)) (t : task) : M (list (Z * bytes)) :=
  try_except
    (emit (EGetObject bucket s3_key (start_byte t) (end_byte t));;
     let* data := lift_result
                    (get_object w bucket s3_key (start_byte t) (end_byte t)) in
     let parts := parts ++ [(chunk_num t, data)] in
     print (LogProgress (length parts) num_chunks (chunk_num t + 1)
              (length data));;
     ret parts)
    (fun e =>
       print (LogChunkError (chunk_num t) (str e));;
       raise e).

(** The pool runs every submitted task to its end, in completion order.
    A task that returns has appended to [parts]; one that raises leaves
    its exception in its future, here [failed]. *)
Fixpoint run_tasks (bucket s3_key : string) (num_chunks : Z)
    (order : list task) (parts : list (Z * bytes)) (failed : list (Z * exn))
    : M (list (Z * bytes) * list (Z * exn)) :=
  match order with
  | [] => ret (parts, failed)
  | t :: order' =>
      fun s =>
        match download_chunk bucket s3_key num_chunks parts t s with
        | (Return parts', s') =>
            run_tasks bucket s3_key num_chunks order' parts' failed s'
        | (Raise e, s') =>
            run_tasks bucket s3_key num_chunks order' parts
              (failed ++ [(chunk_num t, e)]) s'
        end
  end.

Fixpoint lookup_failed (i : Z) (failed : list (Z * exn)) : option exn :=
  match failed with
  | [] => None
  | (j, e) :: failed' => if i =? j then Some e else lookup_failed i failed'
  end.

(** Lines 112-113: [future.result()] in submission order re-raises the
    exception of the first future that holds one. *)
Fixpoint await_futures (futures : list task) (failed : list (Z * exn)) : M unit :=
  match futures with
  | [] => ret tt
  | t :: futures' =>
      match lookup_failed (chunk_num t) failed with
      | Some e => raise e
      | None => await_futures futures' failed
      end
  end.

(** [ThreadPoolExecutor(max_workers=...)] refuses a size below one. *)
Definition thread_pool (max_workers : Z) : M unit :=
  emit (EThreadPool max_workers);;
  if max_workers <=? 0
  then raise (ValueError "max_workers must be greater than 0")
  else ret tt.

(** Lines 119-121. [open(path, 'wb')] creates or truncates the file. *)
Definition open_file (path : string) : M unit :=
  emit (EOpen path);;
  let* f := get_fs in
  lift_error (open_wb w path f);;
  set_fs (<[path := []]> f).

Definition write_file (path : string) (data : bytes) : M unit :=
  emit (EWrite path data);;
  let* f := get_fs in
  lift_error (write w path f data);;
  set_fs (<[path := default [] (f !! path) ++ data]> f).

Fixpoint write_parts (path : string) (parts : list (Z * bytes)) : M unit :=
  match parts with
  | [] => ret tt
  | (_, data) :: parts' => write_file path data;; write_parts path parts'
  end.

(** Line 65 *)
Definition call_download_file (bucket s3_key path : string) : M unit :=
  emit (EDownloadFile bucket s3_key path);;
  let* f := get_fs in
  let '(f', r) := download_file w bucket s3_key path f in
  set_fs f';;
  lift_error r.

(** Lines 102-113: the [with ThreadPoolExecutor] block. *)
Definition collect_parts (bucket s3_key : string) (num_chunks actual_workers : Z)
    (futures : list task) : M (list (Z * bytes)) :=
  thread_pool actual_workers;;
  let* done :=
    run_tasks bucket s3_key num_chunks (completion_order w futures) [] [] in
  let '(parts, failed) := done in
  await_futures futures failed;;
  ret parts.

(** Lines 116-121 *)
Definition assemble (destination_path : string) (parts : list (Z * bytes))
    : M unit :=
  let parts := sort_parts parts in
  print (LogWriting (length parts) destination_path);;
  open_file destination_path;;
  write_parts destination_path parts.

(** Lines 102-123: what follows the plan in a chunked download. *)
Definition chunk_phase (bucket s3_key destination_path : string)
    (num_chunks actual_workers : Z) (futures : list task) : M pyvalue :=
  let* parts :=
    collect_parts bucket s3_key num_chunks actual_workers futures in
  assemble destination_path parts;;
  print (LogSuccess destination_path);;
  ret PyNone.

(** Lines 51-123, the body of the [try]. *)
Definition download_body (bucket s3_key destination_folder : string)
    (destination_path : string) (num_workers chunk_size_mb : Z) : M pyvalue :=
  emit (EHeadObject bucket s3_key);;
  let* file_size := lift_result (head_object w bucket s3_key) in
  print (LogFileSize file_size);;
  emit (EMakedirs destination_folder);;
  lift_error (makedirs w destination_folder);;
  let chunk_size := chunk_size_of chunk_size_mb in
  if file_size <? chunk_size then
    print LogSmallFile;;
    call_download_file bucket s3_key destination_path;;
    print (LogSuccess destination_path);;
    ret PyNone
  else
    let* num_chunks := floordiv (file_size + chunk_size - 1) chunk_size in
    let actual_workers := actual_workers_of num_workers num_chunks in
    print (LogChunks num_chunks actual_workers);;
    let futures := chunk_tasks file_size chunk_size num_chunks in
    let* parts :=
      collect_parts bucket s3_key num_chunks actual_workers futures in
    assemble destination_path parts;;
    print (LogSuccess destination_path);;
    ret PyNone.

(** Lines 125-130 *)
Definition on_client_error (bucket s3_key : string) (code : string) (e : exn)
    : M pyvalue :=
  if String.eqb code "404"
  then raise (Exception ("File not found in S3: s3://" +:+ bucket +:+ "/" +:+ s3_key))
  else raise (Exception ("S3 error: " +:+ str e)).

(** Lines 131-136 *)
Definition on_exception (destination_path : string) (e : exn) : M pyvalue :=
  let* f := get_fs in
  (if bool_decide (is_Some (f !! destination_path)) then
     emit (ERemove destination_path);;
     set_fs (delete destination_path f);;
     print (LogCleanup destination_path)
   else ret tt);;
  raise (Exception ("Failed to download from S3: " +:+ str e)).

(** [not bucket] *)
Definition bucket_unset (b : option string) : bool :=
  match b with
  | None => true
  | Some b => (String.length b =? 0)%nat
  end.

(** The two [except] clauses of lines 125 and 131, tried in that order. *)
Definition on_error (bucket s3_key destination_path : string) (e : exn)
    : M pyvalue :=
  match e with
  | ClientError code _ => on_client_error bucket s3_key code e
  | _ => on_exception destination_path e
  end.

Definition download_from_s3 (s3_key destination_folder : string)
    (num_workers chunk_size_mb : Z) : M pyvalue :=
  if bucket_unset (environ_bucket w)
  then raise (Exception "S3_BUCKET environment variable not set")
  else
    let bucket := default "" (environ_bucket w) in
    let filename := basename s3_key in
    let destination_path := path_join destination_folder filename in
    print (LogDownloading bucket s3_key);;
    print (LogDestination destination_path);;
    print (LogWorkers num_workers chunk_size_mb);;
    try_except
      (download_body bucket s3_key destination_folder destination_path
         num_workers chunk_size_mb)
      (on_error bucket s3_key destination_path).

End Download.

(** ** What the tasks compute, as pure functions of the world *)

Section Fetches.

Variable w : world.
Variables bucket s3_key : string.

Definition fetch (t : task) : exn + bytes :=
  get_object w bucket s3_key (start_byte t) (end_byte t).

(** The entries appended to [parts] by the tasks of [order]. *)
Fixpoint parts_of (order : list task) : list (Z * bytes) :=
  match order with
  | [] => []
  | t :: order' =>
      match fetch t with
      | inr data => (chunk_num t, data) :: parts_of order'
      | inl _ => parts_of order'
      end
  end.

(** The exceptions left in the futures of the tasks of [order]. *)
Fixpoint failures_of (order : list task) : list (Z * exn) :=
  match order with
  | [] => []
  | t :: order' =>
      match fetch t with
      | inr _ => failures_of order'
      | inl e => (chunk_num t, e) :: failures_of order'
      end
  end.

(** The events of the tasks of [order], when [k] parts are already there. *)
Fixpoint tasks_trace (num_chunks : Z) (order : list task) (k : nat) : list event :=
  match order with
  | [] => []
  | t :: order' =>
      EGetObject bucket s3_key (start_byte t) (end_byte t) ::
      match fetch t with
      | inr data =>
          EPrint (LogProgress (S k) num_chunks (chunk_num t + 1) (length data))
          :: tasks_trace num_chunks order' (S k)
      | inl e =>
          EPrint (LogChunkError (chunk_num t) (str e))
          :: tasks_trace num_chunks order' k
      end
  end.

(** The exception of the first future, in submission order, that holds one. *)
Fixpoint first_failure (futures : list task) : option exn :=
  match futures with
  | [] => None
  | t :: futures' =>
      match fetch t with
      | inl e => Some e
      | inr _ => first_failure futures'
      end
  end.

(** What task [t] downloads when its fetch returns. *)
Definition payload (t : task) : bytes :=
  match fetch t with
  | inr data => data
  | inl _ => []
  end.

End Fetches.

(** Lines 42-43 *)
Definition destination_path_of (s3_key destination_folder : string) : string :=
  path_join destination_folder (basename s3_key).

(** The three lines printed before the [try]. *)
Definition preamble (bucket s3_key destination_folder : string)
    (num_workers chunk_size_mb : Z) : list event :=
  [EPrint (LogDownloading bucket s3_key);
   EPrint (LogDestination (destination_path_of s3_key destination_folder));
   EPrint (LogWorkers num_workers chunk_size_mb)].

Definition sum_lengths (plan : list task) : Z :=
  foldr (fun t acc => chunk_length t + acc) 0 plan.

(** The bytes an HTTP [Range: bytes=s-e] request selects from [obj]. *)
Definition slice (obj : bytes) (s e : Z) : bytes :=
  take (Z.to_nat (e - s + 1)) (drop (Z.to_nat s) obj).

(** ** A model of [ThreadPoolExecutor]

    Submitted tasks wait in a queue; a task may start while fewer than
    [max_workers] are running; a running task may finish at any time. *)

Inductive pool_action :=
| Start
| Finish (k : nat).

Record pool := Pool {
  queued : list task;
  running : list task;
  finished : list task
}.

Definition pool_step (max_workers : Z) (a : pool_action) (p : pool) : option pool :=
  match a with
  | Start =>
      match queued p with
      | t :: q =>
          if Z.of_nat (length (running p)) <? max_workers
          then Some (Pool q (running p ++ [t]) (finished p))
          else None
      | [] => None
      end
  | Finish k =>
      match running p !! k with
      | Some t => Some (Pool (queued p) (delete k (running p)) (finished p ++ [t]))
      | None => None
      end
  end.

Fixpoint pool_exec (max_workers : Z) (sched : list pool_action) (p : pool)
    : option pool :=
  match sched with
  | [] => Some p
  | a :: sched' =>
      match pool_step max_workers a p with
      | Some p' => pool_exec max_workers sched' p'
      | None => None
      end
  end.

(** [order] is a completion order the pool can produce for [futures]. *)
Definition pool_completes (max_workers : Z) (futures order : list task) : Prop :=
  exists sched,
    pool_exec max_workers sched (Pool futures [] []) = Some (Pool [] [] order).

(** ** A store that holds one object, for the examples *)

Definition one_object_store (bucket s3_key : string) (obj : bytes)
    (order : list task -> list task) : world :=
  {| environ_bucket := Some bucket;
     head_object b k :=
       if String.eqb b bucket && String.eqb k s3_key
       then inr (Z.of_nat (length obj))
       else inl (ClientError "404" "Not Found");
     get_object b k s e :=
       if String.eqb b bucket && String.eqb k s3_key
       then inr (slice obj s e)
       else inl (ClientError "NoSuchKey" "The specified key does not exist.");
     download_file b k path f :=
       if String.eqb b bucket && String.eqb k s3_key
       then (<[path := obj]> f, None)
       else (f, Some (ClientError "404" "Not Found"));
     makedirs _ := None;
     open_wb _ _ := None;
     write _ _ _ := None;
     completion_order := order |}.


(** A two-chunk object of 2 MiB behind a store that finishes the second
    chunk first. *)
Definition two_mib_object : bytes := replicate (Z.to_nat 2097152) Byte.x00.

Definition two_mib_store : world :=
  {| environ_bucket := Some "b";
     head_object _ _ := inr 2097152;
     get_object _ _ s e := inr (slice two_mib_object s e);
     download_file _ _ path f := (<[path := two_mib_object]> f, None);
     makedirs _ := None;
     open_wb _ _ := None;
     write _ _ _ := None;
     completion_order := @rev task |}.

Definition run {A} (m : M A) (f : gmap string bytes) : outcome A * state :=
  m (State f []).

(** ** [main] (lines 139-181)

    [parser.parse_args()] is argparse's; what it hands over is the two
    positional arguments and the two options, which may be absent and
    then take the defaults of lines 159 and 160.  [os.environ] is a
    finite map; the S3 client and the bucket of [download_from_s3] read
    the same environment. *)

Record cli_args := CliArgs {
  s3_filename : string;
  dest_folder : string;
  arg_workers : option Z;
  arg_chunk_size : option Z
}.

(** Line 165 *)
Definition required_vars : list string :=
  ["RUNPOD_S3_BUCKET"; "RUNPOD_S3_ACCESS_KEY_ID";
   "RUNPOD_S3_SECRET_ACCESS_KEY"; "RUNPOD_S3_REGION"].

(** [not os.environ.get(var)] *)
Definition env_unset (environ : gmap string string) (var : string) : bool :=
  match environ !! var with
  | None => true
  | Some v => (String.length v =? 0)%nat
  end.

(** Line 166 *)
Definition missing_vars (environ : gmap string string) : list string :=
  List.filter (env_unset environ) required_vars.

(** [sep.join(l)] *)
Fixpoint join (sep : string) (l : list string) : string :=
  match l with
  | [] => ""
  | [x] => x
  | x :: l' => x +:+ sep +:+ join sep l'
  end.

(** The world [w] seen through the environment [environ]. *)
Definition with_environ (environ : gmap string string) (w : world) : world :=
  {| environ_bucket := environ !! "RUNPOD_S3_BUCKET";
     head_object := head_object w;
     get_object := get_object w;
     download_file := download_file w;
     makedirs := makedirs w;
     open_wb := open_wb w;
     write := write w;
     completion_order := completion_order w |}.

(** How the process ends: its exit status, the lines [main] itself
    printed, and the state [download_from_s3] left. *)
Record exit := Exit {
  status : Z;
  printed : list string;
  final : state
}.

Definition main (environ : gmap string string) (w : world) (args : cli_args)
    (f0 : gmap string bytes) : exit :=
  match missing_vars environ with
  | _ :: _ =>
      Exit 1
        ["Error: Missing required environment variables: "
         +:+ join ", " (missing_vars environ)]
        (State f0 [])
  | [] =>
      match run (download_from_s3 (with_environ environ w)
                   (s3_filename args) (dest_folder args)
                   (default 12 (arg_workers args))
                   (default 64 (arg_chunk_size args))) f0 with
      | (Return _, s) => Exit 0 [] s
      | (Raise e, s) => Exit 1 ["Error: " +:+ str e] s
      end
  end.


(** The counters of the progress lines of a trace, in order. *)
Fixpoint progress_counts (tr : list event) : list nat :=
  match tr with
  | [] => []
  | EPrint (LogProgress k _ _ _) :: tr' => k :: progress_counts tr'
  | _ :: tr' => progress_counts tr'
  end.


(** The events that can follow the pool block: those of the assembly,
    of the cleanup and the closing line. *)
Definition after_tasks (ev : event) : bool :=
  match ev with
  | EPrint (LogWriting _ _) | EOpen _ | EWrite _ _ | ERemove _
  | EPrint (LogCleanup _) | EPrint (LogSuccess _) => true
  | _ => false
  end.

(** ** Facts about [range] *)

Lemma range_length n : length (range n) = Z.to_nat n.
Proof. unfold range. by rewrite length_map, length_seq. Qed.

Lemma range_nonpos n : n <= 0 -> range n = [].
Proof. intros H. unfold range. by replace (Z.to_nat n) with 0%nat by lia. Qed.

Lemma range_succ n : 0 <= n -> range (n + 1) = range n ++ [n].
Proof.
  intros H. unfold range.
  replace (Z.to_nat (n + 1)) with (S (Z.to_nat n)) by lia.
  rewrite seq_S, map_app. simpl. by rewrite Z2Nat.id.
Qed.

Lemma range_lookup n i :
  0 <= i < n -> range n !! Z.to_nat i = Some i.
Proof.
  intros H. unfold range. rewrite list_lookup_fmap.
  rewrite lookup_seq_lt by lia. simpl. f_equal. lia.
Qed.

Lemma elem_of_range n x : x ∈ range n <-> 0 <= x < n.
Proof.
  unfold range. rewrite list_elem_of_fmap. split.
  - intros (k & -> & Hk). apply elem_of_seq in Hk. lia.
  - intros H. exists (Z.to_nat x). split; [lia|]. apply elem_of_seq. lia.
Qed.

(** ** Facts about the chunk arithmetic *)

Lemma sum_lengths_app p q : sum_lengths (p ++ q) = sum_lengths p + sum_lengths q.
Proof. induction p as [|t p IH]; simpl; [done|]. rewrite IH. lia. Qed.

Lemma num_chunks_bounds file_size chunk_size :
  0 < chunk_size ->
  (num_chunks_of file_size chunk_size - 1) * chunk_size < file_size
  <= num_chunks_of file_size chunk_size * chunk_size.
Proof.
  intros Hc. unfold num_chunks_of.
  pose proof (Z.div_mod (file_size + chunk_size - 1) chunk_size ltac:(lia)) as Hd.
  pose proof (Z.mod_pos_bound (file_size + chunk_size - 1) chunk_size Hc) as Hm.
  nia.
Qed.

Lemma num_chunks_pos file_size chunk_size :
  0 < chunk_size -> chunk_size <= file_size ->
  1 <= num_chunks_of file_size chunk_size.
Proof.
  intros Hc Hf. pose proof (num_chunks_bounds file_size chunk_size Hc). nia.
Qed.

Lemma chunk_tasks_lookup file_size chunk_size n i :
  0 <= i < n ->
  chunk_tasks file_size chunk_size n !! Z.to_nat i
  = Some (chunk_task file_size chunk_size i).
Proof.
  intros H. unfold chunk_tasks. rewrite list_lookup_fmap.
  by rewrite range_lookup.
Qed.

Lemma chunk_tasks_nums file_size chunk_size n :
  map chunk_num (chunk_tasks file_size chunk_size n) = range n.
Proof.
  unfold chunk_tasks. rewrite map_map. simpl. apply map_id.
Qed.

Lemma full_chunks_sum file_size chunk_size k :
  0 < chunk_size -> 0 <= k -> k * chunk_size <= file_size ->
  sum_lengths (chunk_tasks file_size chunk_size k) = k * chunk_size.
Proof.
  intros Hc Hk. pattern k. revert k Hk. apply natlike_ind.
  - intros _. reflexivity.
  - intros k Hk IH Hle. unfold chunk_tasks in *.
    replace (Z.succ k) with (k + 1) in * by lia.
    rewrite range_succ, map_app, sum_lengths_app by done.
    rewrite IH by nia. simpl. unfold chunk_length. simpl. nia.
Qed.

(** C1. For [0 < chunk_size <= file_size] the submitted tasks are
    [ceil(file_size / chunk_size)] in number, numbered [0 .. n-1]; task
    [i] covers [i*chunk_size .. min((i+1)*chunk_size, file_size) - 1];
    the ranges start at 0, follow one another without gap or overlap,
    end at [file_size - 1], none is empty, every byte offset of the
    object lies in exactly one of them, and their lengths add up to
    [file_size]. *)
Theorem chunk_plan_partitions (file_size chunk_size : Z) :
  0 < chunk_size -> chunk_size <= file_size ->
  let n := num_chunks_of file_size chunk_size in
  let plan := chunk_tasks file_size chunk_size n in
  (n - 1) * chunk_size < file_size <= n * chunk_size /\
  Z.of_nat (length plan) = n /\
  map chunk_num plan = range n /\
  (forall i, 0 <= i < n ->
     plan !! Z.to_nat i
     = Some (Task i (i * chunk_size)
               (Z.min ((i + 1) * chunk_size) file_size - 1))) /\
  (forall i, 0 <= i < n ->
     start_byte (chunk_task file_size chunk_size 0) = 0 /\
     (i + 1 < n ->
      end_byte (chunk_task file_size chunk_size i) + 1
      = start_byte (chunk_task file_size chunk_size (i + 1))) /\
     end_byte (chunk_task file_size chunk_size (n - 1)) = file_size - 1) /\
  (forall t, t ∈ plan -> 0 < chunk_length t) /\
  (forall b, 0 <= b < file_size ->
     exists i, 0 <= i < n /\
       forall j, 0 <= j < n ->
         (start_byte (chunk_task file_size chunk_size j) <= b
          <= end_byte (chunk_task file_size chunk_size j)) <-> j = i) /\
  sum_lengths plan = file_size.
Proof.
  intros Hc Hf n plan.
  pose proof (num_chunks_bounds file_size chunk_size Hc) as Hb.
  pose proof (num_chunks_pos file_size chunk_size Hc Hf) as Hn.
  fold n in Hb, Hn.
  split; [exact Hb|].
  split; [unfold plan, chunk_tasks; rewrite length_map, range_length; lia|].
  split; [apply chunk_tasks_nums|].
  split.
  { intros i Hi. unfold plan. rewrite chunk_tasks_lookup by done.
    unfold chunk_task. do 2 f_equal. lia. }
  split.
  { intros i Hi. unfold chunk_task. simpl. repeat split; [|nia].
    intros Hlt. nia. }
  split.
  { intros t Ht. unfold plan, chunk_tasks in Ht.
    apply list_elem_of_fmap in Ht as (i & -> & Hi).
    apply elem_of_range in Hi. unfold chunk_length, chunk_task. simpl. nia. }
  split.
  { intros b Hb'. exists (b / chunk_size).
    pose proof (Z.div_mod b chunk_size ltac:(lia)) as Hd.
    pose proof (Z.mod_pos_bound b chunk_size Hc) as Hm.
    split; [nia|].
    intros j Hj. unfold chunk_task. simpl. split.
    - intros [H1 H2]. nia.
    - intros ->. nia. }
  unfold plan.
  replace n with ((n - 1) + 1) at 1 by lia.
  unfold chunk_tasks. rewrite range_succ, map_app, sum_lengths_app by lia.
  fold (chunk_tasks file_size chunk_size (n - 1)).
  rewrite full_chunks_sum by lia.
  simpl. unfold chunk_length. simpl. nia.
Qed.

Lemma chunk_plan_partitions_witness :
  let plan := chunk_tasks 10 4 (num_chunks_of 10 4) in
  plan = [Task 0 0 3; Task 1 4 7; Task 2 8 9] /\ sum_lengths plan = 10.
Proof.
  split; [reflexivity|].
  apply (chunk_plan_partitions 10 4); lia.
Defined.

(** ** The monad *)

Lemma bind_Return {A B} (m : M A) (k : A -> M B) s a s' :
  m s = (Return a, s') -> bind m k s = k a s'.
Proof. intros H. unfold bind. by rewrite H. Qed.

Lemma bind_Raise {A B} (m : M A) (k : A -> M B) s e s' :
  m s = (Raise e, s') -> bind m k s = (Raise e, s').
Proof. intros H. unfold bind. by rewrite H. Qed.


Lemma bind_inv_Raise {A B} (m : M A) (k : A -> M B) s e s1 :
  bind m k s = (Raise e, s1) ->
  m s = (Raise e, s1) \/
  exists a s', m s = (Return a, s') /\ k a s' = (Raise e, s1).
Proof.
  unfold bind. destruct (m s) as [[a|e'] s']; [eauto|].
  intros H. left. by inversion H.
Qed.

Lemma emit_eq ev s : emit ev s = (Return tt, State (fs s) (out s ++ [ev])).
Proof. reflexivity. Qed.

(** ** The tasks *)

Section TaskFacts.

Variable w : world.
Variables bucket s3_key : string.
Variable num_chunks : Z.

Lemma download_chunk_eq parts t s :
  download_chunk w bucket s3_key num_chunks parts t s =
  match fetch w bucket s3_key t with
  | inr data =>
      (Return (parts ++ [(chunk_num t, data)]),
       State (fs s)
         (out s ++
          [EGetObject bucket s3_key (start_byte t) (end_byte t);
           EPrint (LogProgress (S (length parts)) num_chunks (chunk_num t + 1)
                     (length data))]))
  | inl e =>
      (Raise e,
       State (fs s)
         (out s ++
          [EGetObject bucket s3_key (start_byte t) (end_byte t);
           EPrint (LogChunkError (chunk_num t) (str e))]))
  end.
Proof.
  unfold download_chunk, try_except, bind, fetch, print, emit. simpl.
  destruct (get_object w bucket s3_key (start_byte t) (end_byte t))
    as [e|data]; simpl.
  - by rewrite <- app_assoc.
  - rewrite <- app_assoc. simpl. rewrite length_app. simpl.
    by replace (length parts + 1)%nat with (S (length parts)) by lia.
Qed.

Lemma run_tasks_eq order : forall parts failed s,
  run_tasks w bucket s3_key num_chunks order parts failed s =
  (Return (parts ++ parts_of w bucket s3_key order,
           failed ++ failures_of w bucket s3_key order),
   State (fs s)
     (out s ++ tasks_trace w bucket s3_key num_chunks order (length parts))).
Proof.
  induction order as [|t order IH]; intros parts failed s; simpl.
  - unfold ret. rewrite !app_nil_r. by destruct s.
  - rewrite download_chunk_eq.
    destruct (fetch w bucket s3_key t) as [e|data]; rewrite IH; simpl.
    + rewrite <- !app_assoc. reflexivity.
    + rewrite <- !app_assoc. simpl. rewrite length_app. simpl.
      by replace (length parts + 1)%nat with (S (length parts)) by lia.
Qed.

Lemma tasks_trace_no_write order : forall k,
  Forall (fun ev => is_file_write ev = false /\ is_pool ev = false
                    /\ is_whole_fetch ev = false)
    (tasks_trace w bucket s3_key num_chunks order k).
Proof.
  induction order as [|t order IH]; intros k; simpl; [constructor|].
  constructor; [done|].
  destruct (fetch w bucket s3_key t); (constructor; [done|apply IH]).
Qed.

Lemma lookup_failed_None i failed :
  i ∉ map fst failed -> lookup_failed i failed = None.
Proof.
  induction failed as [|[j e] failed IH]; simpl; [done|].
  intros H. apply not_elem_of_cons in H as [Hne H].
  destruct (Z.eqb_spec i j); [done|]. by apply IH.
Qed.

Lemma failures_of_nums order :
  map fst (failures_of w bucket s3_key order) ⊆ map chunk_num order.
Proof.
  induction order as [|t order IH]; simpl; [done|].
  destruct (fetch w bucket s3_key t); simpl.
  - intros x Hx. apply elem_of_cons in Hx as [->|Hx]; [left|right; by apply IH].
  - intros x Hx. right. by apply IH.
Qed.

Lemma lookup_failed_failures_of order t :
  NoDup (map chunk_num order) -> t ∈ order ->
  lookup_failed (chunk_num t) (failures_of w bucket s3_key order)
  = match fetch w bucket s3_key t with
    | inl e => Some e
    | inr _ => None
    end.
Proof.
  induction order as [|t0 order IH]; simpl; intros Hnd Hin.
  - by apply elem_of_nil in Hin.
  - apply NoDup_cons in Hnd as [Hnotin Hnd].
    apply elem_of_cons in Hin as [->|Hin].
    + destruct (fetch w bucket s3_key t0) as [e|d]; simpl.
      * by rewrite Z.eqb_refl.
      * apply lookup_failed_None. intros H. apply Hnotin.
        by apply failures_of_nums.
    + assert (chunk_num t <> chunk_num t0) as Hne.
      { intros Heq. apply Hnotin. rewrite <- Heq.
        apply list_elem_of_fmap. eauto. }
      destruct (fetch w bucket s3_key t0) as [e|d]; simpl.
      * destruct (Z.eqb_spec (chunk_num t) (chunk_num t0)); [done|].
        by apply IH.
      * by apply IH.
Qed.

Lemma failures_of_perm order order' :
  order ≡ₚ order' -> NoDup (map chunk_num order') ->
  forall t, t ∈ order' ->
    lookup_failed (chunk_num t) (failures_of w bucket s3_key order)
    = lookup_failed (chunk_num t) (failures_of w bucket s3_key order').
Proof.
  intros Hp Hnd t Ht.
  rewrite !lookup_failed_failures_of; try done.
  - by rewrite Hp.
  - by rewrite Hp.
Qed.

Lemma await_futures_eq futures : forall order s,
  NoDup (map chunk_num order) -> futures ⊆ order ->
  await_futures futures (failures_of w bucket s3_key order) s =
  match first_failure w bucket s3_key futures with
  | Some e => (Raise e, s)
  | None => (Return tt, s)
  end.
Proof.
  induction futures as [|t futures IH]; intros order s Hnd Hsub; simpl.
  - reflexivity.
  - rewrite lookup_failed_failures_of; [|done|apply Hsub; left].
    destruct (fetch w bucket s3_key t) as [e|d]; [reflexivity|].
    apply IH; [done|]. intros x Hx. apply Hsub. by right.
Qed.

Lemma first_failure_None futures :
  first_failure w bucket s3_key futures = None <->
  forall t, t ∈ futures -> exists data, fetch w bucket s3_key t = inr data.
Proof.
  induction futures as [|t futures IH]; simpl.
  - split; [|done]. intros _ t Ht. by apply elem_of_nil in Ht.
  - destruct (fetch w bucket s3_key t) as [e|d] eqn:Hf.
    + split; [done|]. intros H. destruct (H t) as [d Hd]; [left|]. congruence.
    + rewrite IH. split.
      * intros H t' Ht'. apply elem_of_cons in Ht' as [->|Ht']; eauto.
      * intros H t' Ht'. apply H. by right.
Qed.

Lemma parts_of_all_ok order :
  (forall t, t ∈ order -> exists data, fetch w bucket s3_key t = inr data) ->
  map fst (parts_of w bucket s3_key order) = map chunk_num order.
Proof.
  induction order as [|t order IH]; simpl; intros H; [done|].
  destruct (H t) as [d Hd]; [left|]. rewrite Hd. simpl. f_equal.
  apply IH. intros t' Ht'. apply H. by right.
Qed.

End TaskFacts.

(** ** Sorting the parts *)

Lemma insert_part_comm x y l :
  x.1 <> y.1 ->
  insert_part x (insert_part y l) = insert_part y (insert_part x l).
Proof.
  intros Hne. induction l as [|z l IH]; simpl;
    repeat match goal with
           | |- context [?a <=? ?b] => destruct (Z.leb_spec a b); simpl
           end;
    try reflexivity; try (exfalso; lia).
  by rewrite IH.
Qed.

Lemma sort_parts_perm l l' :
  l ≡ₚ l' -> NoDup (map fst l) -> sort_parts l = sort_parts l'.
Proof.
  unfold sort_parts. induction 1 as [|x l l' Hp IH|x y l|l l' l'' H1 IH1 H2 IH2];
    simpl; intros Hnd.
  - reflexivity.
  - apply NoDup_cons in Hnd as [_ Hnd]. by rewrite IH.
  - apply NoDup_cons in Hnd as [Hx _].
    apply insert_part_comm. intros Heq. apply Hx. rewrite Heq. left.
  - rewrite IH1 by done. apply IH2. by rewrite <- H1.
Qed.

Lemma sort_parts_ascending (g : Z -> bytes) k : forall a,
  sort_parts (map (fun i => (Z.of_nat i, g (Z.of_nat i))) (seq a k))
  = map (fun i => (Z.of_nat i, g (Z.of_nat i))) (seq a k).
Proof.
  unfold sort_parts. induction k as [|k IH]; intros a; simpl; [done|].
  rewrite IH. destruct k as [|k]; simpl; [done|].
  destruct (Z.leb_spec (Z.of_nat a) (Z.of_nat (S a))); [done|lia].
Qed.

Lemma sort_parts_range (g : Z -> bytes) n :
  sort_parts (map (fun i => (i, g i)) (range n)) = map (fun i => (i, g i)) (range n).
Proof.
  unfold range. rewrite map_map. apply (sort_parts_ascending g).
Qed.

Lemma insert_part_perm x l : insert_part x l ≡ₚ x :: l.
Proof.
  induction l as [|y l IH]; simpl; [done|].
  destruct (x.1 <=? y.1); [done|]. rewrite IH. apply Permutation_swap.
Qed.

Lemma sort_parts_permutation l : sort_parts l ≡ₚ l.
Proof.
  unfold sort_parts. induction l as [|x l IH]; simpl; [done|].
  by rewrite insert_part_perm, IH.
Qed.

Lemma sort_parts_length l : length (sort_parts l) = length l.
Proof. by rewrite sort_parts_permutation. Qed.

(** ** Slices of the object *)

Lemma full_slices_concat (obj : bytes) file_size chunk_size k :
  0 < chunk_size -> 0 <= k -> k * chunk_size <= file_size ->
  concat (map (fun t => slice obj (start_byte t) (end_byte t))
            (chunk_tasks file_size chunk_size k))
  = take (Z.to_nat (k * chunk_size)) obj.
Proof.
  intros Hc Hk. pattern k. revert k Hk. apply natlike_ind.
  - intros _. reflexivity.
  - intros k Hk IH Hle. unfold chunk_tasks in *.
    replace (Z.succ k) with (k + 1) in * by lia.
    rewrite range_succ, !map_app, concat_app by done.
    rewrite IH by nia. simpl. rewrite app_nil_r. unfold slice.
    replace (Z.min (k * chunk_size + chunk_size - 1) (file_size - 1)
             - k * chunk_size + 1) with chunk_size by nia.
    rewrite take_take_drop. f_equal. nia.
Qed.

Lemma slices_concat (obj : bytes) file_size chunk_size :
  0 < chunk_size -> chunk_size <= file_size ->
  Z.of_nat (length obj) = file_size ->
  concat (map (fun t => slice obj (start_byte t) (end_byte t))
            (chunk_tasks file_size chunk_size
               (num_chunks_of file_size chunk_size)))
  = obj.
Proof.
  intros Hc Hf Hlen.
  pose proof (num_chunks_bounds file_size chunk_size Hc) as Hb.
  pose proof (num_chunks_pos file_size chunk_size Hc Hf) as Hn.
  set (n := num_chunks_of file_size chunk_size) in *.
  replace n with ((n - 1) + 1) by lia.
  unfold chunk_tasks. rewrite range_succ, !map_app, concat_app by lia.
  fold (chunk_tasks file_size chunk_size (n - 1)).
  rewrite full_slices_concat by lia.
  simpl. rewrite app_nil_r. unfold slice.
  rewrite (take_ge (drop _ _)).
  - apply take_drop.
  - rewrite length_drop. nia.
Qed.

(** ** The thread pool model *)

Lemma pool_step_bound mw a p p' :
  pool_step mw a p = Some p' ->
  Z.of_nat (length (running p)) <= Z.max 0 mw ->
  Z.of_nat (length (running p')) <= Z.max 0 mw.
Proof.
  destruct a as [|k]; simpl.
  - destruct (queued p) as [|t q]; [done|].
    destruct (Z.ltb_spec (Z.of_nat (length (running p))) mw); [|done].
    intros [= <-] _. simpl. rewrite length_app. simpl. lia.
  - destruct (running p !! k) as [t|] eqn:Hk; [|done].
    intros [= <-] Hb. simpl. rewrite length_delete by eauto. lia.
Qed.

Lemma pool_step_perm mw a p p' :
  pool_step mw a p = Some p' ->
  finished p' ++ running p' ++ queued p'
  ≡ₚ finished p ++ running p ++ queued p.
Proof.
  destruct a as [|k]; simpl.
  - destruct (queued p) as [|t q] eqn:Hq; [done|].
    destruct (Z.of_nat (length (running p)) <? mw); [|done].
    intros [= <-]. simpl. by rewrite <- (app_assoc (running p)).
  - destruct (running p !! k) as [t|] eqn:Hk; [|done].
    intros [= <-]. simpl. rewrite <- app_assoc. simpl.
    apply Permutation_app_head.
    by rewrite (delete_Permutation (running p) k t Hk) at 2.
Qed.

Lemma pool_exec_bound mw sched : forall p p',
  pool_exec mw sched p = Some p' ->
  Z.of_nat (length (running p)) <= Z.max 0 mw ->
  Z.of_nat (length (running p')) <= Z.max 0 mw.
Proof.
  induction sched as [|a sched IH]; simpl; intros p p'.
  - by intros [= <-].
  - destruct (pool_step mw a p) as [p1|] eqn:Hs; [|done].
    intros He Hb. eapply IH; [exact He|]. by eapply pool_step_bound.
Qed.

Lemma pool_exec_perm mw sched : forall p p',
  pool_exec mw sched p = Some p' ->
  finished p' ++ running p' ++ queued p'
  ≡ₚ finished p ++ running p ++ queued p.
Proof.
  induction sched as [|a sched IH]; simpl; intros p p'.
  - by intros [= <-].
  - destruct (pool_step mw a p) as [p1|] eqn:Hs; [|done].
    intros He. rewrite (IH _ _ He). by eapply pool_step_perm.
Qed.

Lemma pool_completes_perm mw futures order :
  pool_completes mw futures order -> order ≡ₚ futures.
Proof.
  intros [sched He]. apply pool_exec_perm in He. simpl in He.
  by rewrite app_nil_r in He.
Qed.

Lemma chunk_tasks_NoDup file_size chunk_size n :
  NoDup (map chunk_num (chunk_tasks file_size chunk_size n)).
Proof.
  rewrite chunk_tasks_nums. unfold range.
  apply (NoDup_fmap_2 Z.of_nat). apply NoDup_seq.
Qed.

(** ** The steps of [download_from_s3] *)

Section BodyFacts.

Variable w : world.

Lemma thread_pool_eq mw s :
  thread_pool mw s =
  (if mw <=? 0
   then Raise (ValueError "max_workers must be greater than 0")
   else Return tt,
   State (fs s) (out s ++ [EThreadPool mw])).
Proof.
  unfold thread_pool, bind, emit. simpl. by destruct (mw <=? 0).
Qed.

Lemma await_futures_state futures failed s r s' :
  await_futures futures failed s = (r, s') -> s' = s.
Proof.
  induction futures as [|t fu IH]; simpl.
  - by intros [= _ <-].
  - destruct (lookup_failed (chunk_num t) failed); [|apply IH].
    by intros [= _ <-].
Qed.

(** The pool block leaves the file system alone and emits the pool event
    followed by task events only. *)
Lemma collect_parts_post bucket s3_key n mw futures s r s1 :
  collect_parts w bucket s3_key n mw futures s = (r, s1) ->
  fs s1 = fs s /\
  exists tr,
    out s1 = out s ++ EThreadPool mw :: tr /\
    Forall (fun ev => is_file_write ev = false /\ is_pool ev = false
                      /\ is_whole_fetch ev = false) tr.
Proof.
  unfold collect_parts, bind. rewrite thread_pool_eq.
  destruct (mw <=? 0).
  - intros [= <- <-]. simpl. split; [done|]. exists []. by split.
  - rewrite run_tasks_eq. simpl.
    set (tr := tasks_trace _ _ _ _ _ _).
    destruct (await_futures _ _ _) as [[[]|e] s'] eqn:Ha;
      apply await_futures_state in Ha as ->; intros [= <- <-]; simpl;
      (split; [done|]); exists tr; rewrite <- app_assoc;
      (split; [done|]); apply tasks_trace_no_write.
Qed.

(** With a completion order that is a permutation of the submitted
    tasks, the pool block returns the collected parts exactly when no
    task failed, and otherwise raises the first failure in submission
    order. *)
Lemma collect_parts_eq bucket s3_key n mw futures s :
  NoDup (map chunk_num futures) ->
  completion_order w futures ≡ₚ futures ->
  0 < mw ->
  collect_parts w bucket s3_key n mw futures s =
  (match first_failure w bucket s3_key futures with
   | Some e => Raise e
   | None => Return (parts_of w bucket s3_key (completion_order w futures))
   end,
   State (fs s)
     (out s ++ EThreadPool mw
        :: tasks_trace w bucket s3_key n (completion_order w futures) 0)).
Proof.
  intros Hnd Hp Hmw. unfold collect_parts, bind. rewrite thread_pool_eq.
  destruct (Z.leb_spec mw 0); [lia|].
  rewrite run_tasks_eq. simpl.
  rewrite (await_futures_eq w bucket s3_key futures (completion_order w futures)).
  - rewrite <- app_assoc. simpl.
    by destruct (first_failure w bucket s3_key futures).
  - by rewrite Hp.
  - intros x Hx. by rewrite Hp.
Qed.

Lemma open_file_eq path s :
  open_file w path s =
  match open_wb w path (fs s) with
  | Some e => (Raise e, State (fs s) (out s ++ [EOpen path]))
  | None => (Return tt, State (<[path := []]> (fs s)) (out s ++ [EOpen path]))
  end.
Proof.
  unfold open_file, bind, emit, get_fs, set_fs. simpl.
  by destruct (open_wb w path (fs s)).
Qed.

Lemma write_file_eq path data s :
  write_file w path data s =
  match write w path (fs s) data with
  | Some e => (Raise e, State (fs s) (out s ++ [EWrite path data]))
  | None =>
      (Return tt,
       State (<[path := default [] (fs s !! path) ++ data]> (fs s))
         (out s ++ [EWrite path data]))
  end.
Proof.
  unfold write_file, bind, emit, get_fs, set_fs. simpl.
  by destruct (write w path (fs s) data).
Qed.

(** Writing touches no path but its own and emits writes only. *)
Lemma write_parts_post path parts : forall s r s1,
  write_parts w path parts s = (r, s1) ->
  (forall p, p <> path -> fs s1 !! p = fs s !! p) /\
  exists tr, out s1 = out s ++ tr /\ Forall (fun ev => is_pool ev = false
    /\ is_network ev = false) tr.
Proof.
  induction parts as [|[i data] parts IH]; simpl; intros s r s1.
  - intros [= <- <-]. split; [done|]. exists []. by rewrite app_nil_r.
  - unfold bind. rewrite write_file_eq.
    destruct (write w path (fs s) data).
    + intros [= <- <-]. simpl. split; [done|]. eexists. split; [done|].
      by repeat constructor.
    + intros H. apply IH in H as [Hfr (tr & Hout & Htr)]. simpl in *.
      split.
      * intros p Hp. rewrite Hfr by done. by rewrite lookup_insert_ne.
      * exists (EWrite path data :: tr). rewrite Hout, <- app_assoc.
        split; [done|]. by constructor.
Qed.

(** When no write fails the file ends up with the payloads appended in
    list order. *)
Lemma write_parts_ok path parts : forall s c,
  (forall f d, write w path f d = None) ->
  fs s !! path = Some c ->
  write_parts w path parts s =
  (Return tt,
   State (<[path := c ++ concat (map snd parts)]> (fs s))
     (out s ++ map (fun x => EWrite path x.2) parts)).
Proof.
  intros s c Hw. revert s c.
  induction parts as [|[i data] parts IH]; simpl; intros s c Hc.
  - unfold ret. rewrite !app_nil_r, insert_id by done. by destruct s.
  - unfold bind. rewrite write_file_eq, Hw, Hc. simpl.
    rewrite (IH _ (c ++ data)) by (simpl; apply lookup_insert_eq).
    simpl. by rewrite insert_insert_eq, <- !app_assoc.
Qed.

Lemma assemble_post path parts s r s1 :
  assemble w path parts s = (r, s1) ->
  (forall p, p <> path -> fs s1 !! p = fs s !! p) /\
  exists tr, out s1 = out s ++ tr /\ Forall (fun ev => is_pool ev = false
    /\ is_network ev = false) tr.
Proof.
  unfold assemble, bind, print. rewrite emit_eq, open_file_eq. simpl.
  destruct (open_wb w path (fs s)).
  - intros [= <- <-]. simpl. split; [done|]. eexists.
    rewrite <- app_assoc. split; [done|]. by repeat constructor.
  - intros H. apply write_parts_post in H as [Hfr (tr & Hout & Htr)].
    simpl in *. split.
    + intros p Hp. rewrite Hfr by done. by rewrite lookup_insert_ne.
    + eexists. rewrite Hout, <- !app_assoc. split; [done|].
      simpl. by repeat constructor.
Qed.

Lemma assemble_ok path parts s :
  open_wb w path (fs s) = None ->
  (forall f d, write w path f d = None) ->
  assemble w path parts s =
  (Return tt,
   State (<[path := concat (map snd (sort_parts parts))]> (fs s))
     (out s ++ EPrint (LogWriting (length (sort_parts parts)) path)
        :: EOpen path :: map (fun x => EWrite path x.2) (sort_parts parts))).
Proof.
  intros Ho Hw. unfold assemble, bind, print. rewrite emit_eq, open_file_eq.
  simpl. rewrite Ho.
  rewrite (write_parts_ok _ _ _ []) by (done || simpl; apply lookup_insert_eq).
  simpl. by rewrite insert_insert_eq, <- !app_assoc.
Qed.

(** The [except] clauses *)

Lemma on_error_client bucket s3_key path code msg s :
  on_error bucket s3_key path (ClientError code msg) s =
  (Raise (Exception
            (if String.eqb code "404"
             then "File not found in S3: s3://" +:+ bucket +:+ "/" +:+ s3_key
             else "S3 error: " +:+ msg)), s).
Proof.
  unfold on_error, on_client_error. simpl.
  by destruct (String.eqb code "404").
Qed.

Lemma on_error_other bucket s3_key path e s :
  is_ClientError e = false ->
  on_error bucket s3_key path e s =
  (Raise (Exception ("Failed to download from S3: " +:+ str e)),
   if bool_decide (is_Some (fs s !! path))
   then State (delete path (fs s))
          (out s ++ [ERemove path; EPrint (LogCleanup path)])
   else s).
Proof.
  intros He.
  assert (on_error bucket s3_key path e = on_exception path e) as ->
    by (by destruct e).
  unfold on_exception, bind, get_fs. simpl.
  destruct (bool_decide (is_Some (fs s !! path))); simpl; [|done].
  by rewrite <- app_assoc.
Qed.

(** Whatever the [except] clauses are given, they raise an [Exception],
    touch no file but the destination, which they can only remove, and
    emit no network, pool or write event. *)
Lemma on_error_post bucket s3_key dest e s r s1 :
  on_error bucket s3_key dest e s = (r, s1) ->
  (exists msg, r = Raise (Exception msg)) /\
  (fs s1 = fs s \/ fs s1 = delete dest (fs s)) /\
  exists tr, out s1 = out s ++ tr /\
    Forall (fun ev => is_file_write ev = false /\ is_pool ev = false
                      /\ is_network ev = false) tr.
Proof.
  destruct (is_ClientError e) eqn:He.
  - destruct e; try discriminate. rewrite on_error_client.
    intros [= <- <-]. split; [eauto|]. split; [by left|].
    exists []. by rewrite app_nil_r.
  - rewrite on_error_other by done.
    destruct (bool_decide (is_Some (fs s !! dest))); intros [= <- <-].
    + split; [eauto|]. split; [by right|]. eexists. split; [done|].
      by repeat constructor.
    + split; [eauto|]. split; [by left|]. exists []. by rewrite app_nil_r.
Qed.

End BodyFacts.

Section DownloadFacts.

Variable w : world.
Variables s3_key destination_folder : string.
Variables num_workers chunk_size_mb : Z.
Variable bucket : string.

Let dest := destination_path_of s3_key destination_folder.
Let chunk_size := chunk_size_of chunk_size_mb.

Lemma bucket_set_eq :
  environ_bucket w = Some bucket -> bucket <> "" ->
  bucket_unset (environ_bucket w) = false /\
  default "" (environ_bucket w) = bucket.
Proof.
  intros -> Hne. simpl. split; [|done]. by destruct bucket.
Qed.

Lemma download_from_s3_eq s :
  environ_bucket w = Some bucket -> bucket <> "" ->
  download_from_s3 w s3_key destination_folder num_workers chunk_size_mb s =
  try_except
    (download_body w bucket s3_key destination_folder dest
       num_workers chunk_size_mb)
    (on_error bucket s3_key dest)
    (State (fs s)
       (out s ++ preamble bucket s3_key destination_folder
                   num_workers chunk_size_mb)).
Proof.
  intros Hb Hne. destruct (bucket_set_eq Hb Hne) as [Hu Hd].
  unfold download_from_s3. rewrite Hu, Hd.
  unfold bind, print. rewrite !emit_eq. simpl.
  by rewrite <- !app_assoc.
Qed.

Lemma body_head_fails e s :
  head_object w bucket s3_key = inl e ->
  download_body w bucket s3_key destination_folder dest
    num_workers chunk_size_mb s =
  (Raise e, State (fs s) (out s ++ [EHeadObject bucket s3_key])).
Proof.
  intros Hh. unfold download_body, bind. rewrite emit_eq, Hh. reflexivity.
Qed.

Lemma body_makedirs_fails file_size e s :
  head_object w bucket s3_key = inr file_size ->
  makedirs w destination_folder = Some e ->
  download_body w bucket s3_key destination_folder dest
    num_workers chunk_size_mb s =
  (Raise e,
   State (fs s)
     (out s ++ [EHeadObject bucket s3_key; EPrint (LogFileSize file_size);
                EMakedirs destination_folder])).
Proof.
  intros Hh Hm. unfold download_body, bind, print.
  rewrite emit_eq, Hh. simpl. rewrite Hm. simpl.
  by rewrite <- !app_assoc.
Qed.

Lemma body_direct file_size s :
  head_object w bucket s3_key = inr file_size ->
  makedirs w destination_folder = None ->
  file_size < chunk_size ->
  download_body w bucket s3_key destination_folder dest
    num_workers chunk_size_mb s =
  (match (download_file w bucket s3_key dest (fs s)).2 with
   | Some e => Raise e
   | None => Return PyNone
   end,
   State (download_file w bucket s3_key dest (fs s)).1
     (out s ++ [EHeadObject bucket s3_key; EPrint (LogFileSize file_size);
                EMakedirs destination_folder; EPrint LogSmallFile;
                EDownloadFile bucket s3_key dest]
        ++ match (download_file w bucket s3_key dest (fs s)).2 with
           | Some _ => []
           | None => [EPrint (LogSuccess dest)]
           end)).
Proof.
  intros Hh Hm Hlt. unfold download_body, bind, print.
  rewrite emit_eq, Hh. simpl. rewrite Hm. simpl.
  fold chunk_size. destruct (Z.ltb_spec file_size chunk_size); [|lia].
  unfold call_download_file, bind, get_fs, set_fs. simpl.
  destruct (download_file w bucket s3_key dest (fs s)) as [f' [e|]]; simpl.
  - rewrite <- !app_assoc. simpl. reflexivity.
  - rewrite <- !app_assoc. simpl. reflexivity.
Qed.

Lemma body_zero_chunk_size file_size s :
  head_object w bucket s3_key = inr file_size ->
  makedirs w destination_folder = None ->
  0 <= file_size -> chunk_size = 0 ->
  download_body w bucket s3_key destination_folder dest
    num_workers chunk_size_mb s =
  (Raise ZeroDivisionError,
   State (fs s)
     (out s ++ [EHeadObject bucket s3_key; EPrint (LogFileSize file_size);
                EMakedirs destination_folder])).
Proof.
  intros Hh Hm Hf Hz. unfold download_body, bind, print.
  rewrite emit_eq, Hh. simpl. rewrite Hm. simpl.
  fold chunk_size. rewrite Hz.
  destruct (Z.ltb_spec file_size 0); [lia|]. simpl.
  by rewrite <- !app_assoc.
Qed.

Lemma body_chunked file_size s :
  head_object w bucket s3_key = inr file_size ->
  makedirs w destination_folder = None ->
  chunk_size <= file_size -> chunk_size <> 0 ->
  let n := num_chunks_of file_size chunk_size in
  let mw := actual_workers_of num_workers n in
  download_body w bucket s3_key destination_folder dest
    num_workers chunk_size_mb s =
  bind (collect_parts w bucket s3_key n mw (chunk_tasks file_size chunk_size n))
    (fun parts =>
       assemble w dest parts;; print (LogSuccess dest);; ret PyNone)
    (State (fs s)
       (out s ++ [EHeadObject bucket s3_key; EPrint (LogFileSize file_size);
                  EMakedirs destination_folder; EPrint (LogChunks n mw)])).
Proof.
  intros Hh Hm Hle Hnz n mw. unfold download_body.
  unfold bind at 1. rewrite emit_eq.
  unfold bind at 1. rewrite Hh. simpl.
  unfold bind at 1. unfold print at 1. rewrite emit_eq.
  unfold bind at 1. rewrite emit_eq.
  unfold bind at 1. rewrite Hm. simpl.
  fold chunk_size. destruct (Z.ltb_spec file_size chunk_size); [lia|].
  unfold bind at 1. unfold floordiv.
  destruct (Z.eqb_spec chunk_size 0); [done|]. simpl.
  unfold bind at 1. unfold print at 1. rewrite emit_eq. simpl.
  by rewrite <- !app_assoc.
Qed.

End DownloadFacts.

(** ** Event counting *)

Lemma filter_none (P : event -> bool) tr :
  Forall (fun ev => P ev = false) tr -> List.filter P tr = [].
Proof.
  induction 1 as [|ev tr Hev _ IH]; simpl; [done|]. by rewrite Hev.
Qed.

Lemma quiet_handler tr :
  Forall (fun ev => is_file_write ev = false /\ is_pool ev = false
                    /\ is_network ev = false) tr ->
  List.filter is_file_write tr = [] /\ List.filter is_pool tr = [] /\
  List.filter is_whole_fetch tr = [] /\ List.filter is_range_fetch tr = [] /\
  List.filter is_network tr = [].
Proof.
  intros H. repeat split; apply filter_none;
    (eapply Forall_impl; [exact H|]); intros ev (H1 & H2 & H3);
    try done; by destruct ev.
Qed.

(** C4. When the object is smaller than one chunk (an empty object
    included), the download makes exactly one whole-object fetch, into
    the destination path, creates no thread pool, submits no ranged
    fetch and writes no parts; when that fetch stores the object, the
    function returns and the destination holds the object, which for an
    object of size zero is the empty file. *)
Theorem small_object_direct_mode (w : world)
    (s3_key destination_folder : string) (num_workers chunk_size_mb : Z)
    (f0 : gmap string bytes) (bucket : string) (file_size : Z) :
  environ_bucket w = Some bucket -> bucket <> "" ->
  head_object w bucket s3_key = inr file_size ->
  makedirs w destination_folder = None ->
  file_size < chunk_size_of chunk_size_mb ->
  let dest := destination_path_of s3_key destination_folder in
  let res := run (download_from_s3 w s3_key destination_folder
                    num_workers chunk_size_mb) f0 in
  List.filter is_whole_fetch (out res.2) = [EDownloadFile bucket s3_key dest] /\
  List.filter is_range_fetch (out res.2) = [] /\
  List.filter is_pool (out res.2) = [] /\
  List.filter is_file_write (out res.2) = [] /\
  forall obj : bytes,
    Z.of_nat (length obj) = file_size ->
    download_file w bucket s3_key dest f0 = (<[dest := obj]> f0, None) ->
    res.1 = Return PyNone /\
    fs res.2 = <[dest := obj]> f0 /\
    (file_size = 0 -> fs res.2 !! dest = Some []).
Proof.
  intros Hb Hne Hh Hm Hlt dest res. subst res. unfold run.
  rewrite (download_from_s3_eq w s3_key destination_folder num_workers
             chunk_size_mb bucket) by done.
  unfold try_except.
  rewrite (body_direct w s3_key destination_folder num_workers chunk_size_mb
             bucket file_size) by done.
  fold dest. simpl fs. simpl out.
  destruct (download_file w bucket s3_key dest f0) as [f' [e|]] eqn:Hd; simpl.
  - destruct (on_error bucket s3_key dest e _) as [r s1] eqn:Hr.
    apply on_error_post in Hr as (_ & _ & tr & Hout & Htr). simpl in *.
    apply quiet_handler in Htr as (H1 & H2 & H3 & H4 & _).
    rewrite Hout. simpl. rewrite H1, H2, H3, H4.
    do 4 (split; [done|]). intros obj _ [=].
  - do 4 (split; [done|]). intros obj Hlen [= ->].
    do 2 (split; [done|]). intros Hz. rewrite lookup_insert_eq.
    destruct obj; [done|simpl in *; lia].
Qed.

Lemma small_object_direct_mode_witness :
  let w := one_object_store "b" "models/empty.bin" [] id in
  let res := run (download_from_s3 w "models/empty.bin" "out" 12 64) ∅ in
  List.filter is_whole_fetch (out res.2)
  = [EDownloadFile "b" "models/empty.bin" "out/empty.bin"] /\
  List.filter is_range_fetch (out res.2) = [] /\
  List.filter is_pool (out res.2) = [] /\
  fs res.2 !! "out/empty.bin" = Some [].
Proof.
  intros w res.
  destruct (small_object_direct_mode w "models/empty.bin" "out" 12 64 ∅ "b" 0)
    as (H1 & H2 & H3 & _ & H5);
    [reflexivity|discriminate|reflexivity|reflexivity|reflexivity|].
  destruct (H5 []) as (_ & _ & H6); [reflexivity|reflexivity|].
  split; [exact H1|]. split; [exact H2|]. split; [exact H3|].
  apply H6. reflexivity.
Defined.

(** ** Sorted parts of a complete download *)

Section Reassembly.

Variable w : world.
Variables bucket s3_key : string.

Lemma parts_of_payload order :
  (forall t, t ∈ order -> exists d, fetch w bucket s3_key t = inr d) ->
  parts_of w bucket s3_key order
  = map (fun t => (chunk_num t, payload w bucket s3_key t)) order.
Proof.
  induction order as [|t order IH]; simpl; intros H; [done|].
  destruct (H t) as [d Hd]; [left|]. unfold payload at 1. rewrite Hd.
  f_equal. apply IH. intros t' Ht'. apply H. by right.
Qed.

Lemma sorted_parts_eq file_size chunk_size n order :
  let futures := chunk_tasks file_size chunk_size n in
  (forall t, t ∈ futures -> exists d, fetch w bucket s3_key t = inr d) ->
  order ≡ₚ futures ->
  sort_parts (parts_of w bucket s3_key order)
  = map (fun t => (chunk_num t, payload w bucket s3_key t)) futures.
Proof.
  intros futures Hok Hp.
  rewrite parts_of_payload by (intros t Ht; apply Hok; by rewrite <- Hp).
  rewrite (sort_parts_perm _
             (map (fun t => (chunk_num t, payload w bucket s3_key t)) futures)).
  - unfold futures, chunk_tasks. rewrite map_map. simpl.
    apply (sort_parts_range
             (fun i => payload w bucket s3_key (chunk_task file_size chunk_size i))).
  - by apply Permutation_map.
  - rewrite map_map. simpl. rewrite Hp. apply chunk_tasks_NoDup.
Qed.

End Reassembly.

Lemma filter_writes path (l : list (Z * bytes)) :
  List.filter is_file_write (map (fun x => EWrite path x.2) l)
  = map (fun x => EWrite path x.2) l.
Proof. induction l as [|x l IH]; simpl; [done|]. by rewrite IH. Qed.

Lemma filter_write_map {A} (g : A -> bytes) path (l : list A) :
  List.filter is_file_write (map (fun t => EWrite path (g t)) l)
  = map (fun t => EWrite path (g t)) l.
Proof. induction l as [|x l IH]; simpl; [done|]. by rewrite IH. Qed.

Lemma tasks_trace_filter_write w bucket s3_key n order k :
  List.filter is_file_write (tasks_trace w bucket s3_key n order k) = [].
Proof.
  apply filter_none. eapply Forall_impl; [apply tasks_trace_no_write|].
  by intros ev (H & _).
Qed.

(** The run of a chunked download in which nothing fails. *)
Lemma chunked_run_ok (w : world)
    (s3_key destination_folder : string) (num_workers chunk_size_mb : Z)
    (f0 : gmap string bytes) (bucket : string) (file_size : Z) :
  let chunk_size := chunk_size_of chunk_size_mb in
  let n := num_chunks_of file_size chunk_size in
  let mw := actual_workers_of num_workers n in
  let futures := chunk_tasks file_size chunk_size n in
  let dest := destination_path_of s3_key destination_folder in
  environ_bucket w = Some bucket -> bucket <> "" ->
  head_object w bucket s3_key = inr file_size ->
  makedirs w destination_folder = None ->
  chunk_size <= file_size -> chunk_size <> 0 ->
  0 < mw ->
  (forall t, t ∈ futures -> exists d, fetch w bucket s3_key t = inr d) ->
  (forall f, open_wb w dest f = None) ->
  (forall f d, write w dest f d = None) ->
  completion_order w futures ≡ₚ futures ->
  run (download_from_s3 w s3_key destination_folder
         num_workers chunk_size_mb) f0
  = (Return PyNone,
     State (<[dest := concat (map (payload w bucket s3_key) futures)]> f0)
       (preamble bucket s3_key destination_folder num_workers chunk_size_mb
        ++ [EHeadObject bucket s3_key; EPrint (LogFileSize file_size);
            EMakedirs destination_folder; EPrint (LogChunks n mw)]
        ++ EThreadPool mw
           :: tasks_trace w bucket s3_key n (completion_order w futures) 0
        ++ EPrint (LogWriting (length futures) dest)
           :: EOpen dest
           :: map (fun t => EWrite dest (payload w bucket s3_key t)) futures
        ++ [EPrint (LogSuccess dest)])).
Proof.
  intros chunk_size n mw futures dest Hb Hne Hh Hm Hcs Hnz Hmw Hok Hopen Hwrite
    Hperm.
  unfold run.
  rewrite (download_from_s3_eq w s3_key destination_folder num_workers
             chunk_size_mb bucket) by done.
  unfold try_except.
  rewrite (body_chunked w s3_key destination_folder num_workers chunk_size_mb
             bucket file_size) by done.
  fold chunk_size n mw futures dest. unfold bind at 1.
  rewrite collect_parts_eq; [|apply chunk_tasks_NoDup|done|done].
  rewrite (proj2 (first_failure_None w bucket s3_key futures) Hok).
  unfold bind at 1. rewrite assemble_ok by done.
  rewrite (sorted_parts_eq w bucket s3_key file_size chunk_size n) by done.
  fold futures. unfold bind, print. rewrite emit_eq.
  rewrite !map_map, length_map. simpl.
  rewrite <- !app_assoc. reflexivity.
Qed.

(** C2. A chunked download whose fetches all return the requested
    slices of the remote object, and whose file-system calls succeed,
    returns with the destination file equal to the remote object, and
    writes the chunks in ascending chunk number, whatever completion
    order the thread pool produced. *)
Theorem reassembly_independent_of_completion_order (w : world)
    (s3_key destination_folder : string) (num_workers chunk_size_mb : Z)
    (f0 : gmap string bytes) (bucket : string) (file_size : Z) (obj : bytes) :
  let chunk_size := chunk_size_of chunk_size_mb in
  let n := num_chunks_of file_size chunk_size in
  let futures := chunk_tasks file_size chunk_size n in
  let dest := destination_path_of s3_key destination_folder in
  environ_bucket w = Some bucket -> bucket <> "" ->
  head_object w bucket s3_key = inr file_size ->
  makedirs w destination_folder = None ->
  0 < chunk_size <= file_size ->
  1 <= num_workers ->
  Z.of_nat (length obj) = file_size ->
  (forall t, t ∈ futures ->
     get_object w bucket s3_key (start_byte t) (end_byte t)
     = inr (slice obj (start_byte t) (end_byte t))) ->
  (forall f, open_wb w dest f = None) ->
  (forall f d, write w dest f d = None) ->
  pool_completes (actual_workers_of num_workers n) futures
    (completion_order w futures) ->
  let res := run (download_from_s3 w s3_key destination_folder
                    num_workers chunk_size_mb) f0 in
  res.1 = Return PyNone /\
  fs res.2 = <[dest := obj]> f0 /\
  List.filter is_file_write (out res.2)
  = EOpen dest
    :: map (fun t => EWrite dest (slice obj (start_byte t) (end_byte t)))
         futures.
Proof.
  intros chunk_size n futures dest Hb Hne Hh Hm Hcs Hnw Hlen Hget Hopen Hwrite
    Hpool res.
  pose proof (num_chunks_pos file_size chunk_size ltac:(lia) ltac:(lia)) as Hn.
  fold n in Hn.
  assert (forall t, t ∈ futures -> exists d, fetch w bucket s3_key t = inr d)
    as Hok by (intros t Ht; unfold fetch; rewrite Hget by done; eauto).
  assert (map (payload w bucket s3_key) futures
          = map (fun t => slice obj (start_byte t) (end_byte t)) futures)
    as Hpay.
  { apply map_ext_in. intros t Ht. apply list_elem_of_In in Ht.
    unfold payload, fetch. by rewrite Hget. }
  assert (res = run (download_from_s3 w s3_key destination_folder
                       num_workers chunk_size_mb) f0) as Hres by done.
  rewrite (chunked_run_ok w s3_key destination_folder num_workers
             chunk_size_mb f0 bucket file_size) in Hres;
    [|done|done|done|done|fold chunk_size; lia|fold chunk_size; lia
     |fold chunk_size n; unfold actual_workers_of; lia|done|done|done
     |by eapply pool_completes_perm].
  fold chunk_size n futures dest in Hres.
  assert (map (fun t => EWrite dest (payload w bucket s3_key t)) futures
          = map (fun t => EWrite dest (slice obj (start_byte t) (end_byte t)))
              futures) as Hwr.
  { apply map_ext_in. intros t Ht. apply list_elem_of_In in Ht.
    unfold payload, fetch. by rewrite Hget. }
  rewrite Hwr, Hpay in Hres. rewrite Hres. simpl.
  split; [done|]. split.
  - f_equal. apply slices_concat; [lia|lia|done].
  - rewrite List.filter_app, tasks_trace_filter_write. simpl.
    rewrite List.filter_app, filter_write_map. simpl. by rewrite app_nil_r.
Qed.

Lemma reassembly_independent_of_completion_order_witness :
  let res := run (download_from_s3 two_mib_store "models/f.bin" "out" 12 1) ∅ in
  completion_order two_mib_store [Task 0 0 1048575; Task 1 1048576 2097151]
  = [Task 1 1048576 2097151; Task 0 0 1048575] /\
  res.1 = Return PyNone /\
  fs res.2 = <["out/f.bin" := two_mib_object]> ∅.
Proof.
  intros res. split; [reflexivity|].
  destruct (reassembly_independent_of_completion_order two_mib_store
              "models/f.bin" "out" 12 1 ∅ "b" 2097152 two_mib_object)
    as (H1 & H2 & _).
  - reflexivity.
  - discriminate.
  - reflexivity.
  - reflexivity.
  - vm_compute. split; [reflexivity|discriminate].
  - lia.
  - unfold two_mib_object. rewrite length_replicate. lia.
  - intros t _. reflexivity.
  - intros f. reflexivity.
  - intros f d. reflexivity.
  - exists [Start; Start; Finish 1%nat; Finish 0%nat]. vm_compute. reflexivity.
  - split; [exact H1|exact H2].
Defined.

(** ** The chunked phase as a whole *)

Section ChunkPhase.

Variable w : world.
Variables bucket s3_key dest : string.
Variables n mw : Z.
Variable futures : list task.

(** Whatever happens in the chunked phase and in the [except] clauses
    after it: one pool is created, with [mw] workers; the task events
    come next; whatever follows creates no pool and does no network
    call; no file other than the destination is touched. *)
Lemma chunk_phase_post s r s1 :
  try_except (chunk_phase w bucket s3_key dest n mw futures)
    (on_error bucket s3_key dest) s = (r, s1) ->
  (forall p, p <> dest -> fs s1 !! p = fs s !! p) /\
  exists tr1 tr2,
    out s1 = out s ++ EThreadPool mw :: tr1 ++ tr2 /\
    Forall (fun ev => is_file_write ev = false /\ is_pool ev = false
                      /\ is_whole_fetch ev = false) tr1 /\
    Forall (fun ev => is_pool ev = false /\ is_network ev = false) tr2.
Proof.
  unfold try_except, chunk_phase. unfold bind at 1.
  destruct (collect_parts w bucket s3_key n mw futures s) as [[parts|e] s2] eqn:Hc;
    apply collect_parts_post in Hc as (Hfs & tr1 & Hout & Htr1).
  - unfold bind at 1.
    destruct (assemble w dest parts s2) as [[[]|e] s3] eqn:Ha;
      apply assemble_post in Ha as (Hfr & tr2 & Hout2 & Htr2).
    + unfold bind, print. rewrite emit_eq. simpl. intros [= <- <-]. simpl.
      split; [intros p Hp; by rewrite Hfr, Hfs|].
      exists tr1, (tr2 ++ [EPrint (LogSuccess dest)]).
      rewrite Hout2, Hout, <- ?app_assoc. simpl.
      split; [by rewrite <- ?app_assoc|]. split; [done|].
      apply Forall_app. split; [done|]. by repeat constructor.
    + intros Hh. apply on_error_post in Hh as (_ & Hfs3 & tr3 & Hout3 & Htr3).
      split.
      * intros p Hp. destruct Hfs3 as [-> | ->].
        -- by rewrite Hfr, Hfs.
        -- rewrite lookup_delete_ne by done. by rewrite Hfr, Hfs.
      * exists tr1, (tr2 ++ tr3).
        rewrite Hout3, Hout2, Hout, <- ?app_assoc. simpl.
        split; [by rewrite <- ?app_assoc|]. split; [done|].
        apply Forall_app. split; [done|].
        eapply Forall_impl; [exact Htr3|]. by intros ev (_ & ? & ?).
  - intros Hh. apply on_error_post in Hh as (_ & Hfs3 & tr3 & Hout3 & Htr3).
    split.
    + intros p Hp. destruct Hfs3 as [-> | ->].
      * by rewrite Hfs.
      * rewrite lookup_delete_ne by done. by rewrite Hfs.
    + exists tr1, tr3. rewrite Hout3, Hout, <- ?app_assoc. simpl.
      split; [done|]. split; [done|].
      eapply Forall_impl; [exact Htr3|]. by intros ev (_ & ? & ?).
Qed.

End ChunkPhase.

(** C5. In a chunked download the one thread pool that is created has
    [min(num_workers, num_chunks)] workers, which is at most the number
    of chunks; a pool of that size never runs more tasks at once than
    that, whatever the schedule. *)
Theorem worker_count_clamped (w : world)
    (s3_key destination_folder : string) (num_workers chunk_size_mb : Z)
    (f0 : gmap string bytes) (bucket : string) (file_size : Z) :
  let chunk_size := chunk_size_of chunk_size_mb in
  let n := num_chunks_of file_size chunk_size in
  let futures := chunk_tasks file_size chunk_size n in
  environ_bucket w = Some bucket -> bucket <> "" ->
  head_object w bucket s3_key = inr file_size ->
  makedirs w destination_folder = None ->
  0 < chunk_size <= file_size ->
  let res := run (download_from_s3 w s3_key destination_folder
                    num_workers chunk_size_mb) f0 in
  List.filter is_pool (out res.2) = [EThreadPool (Z.min num_workers n)] /\
  Z.min num_workers n <= n /\
  forall sched p,
    pool_exec (Z.min num_workers n) sched (Pool futures [] []) = Some p ->
    Z.of_nat (length (running p)) <= Z.max 0 (Z.min num_workers n) /\
    Z.of_nat (length (running p)) <= n.
Proof.
  intros chunk_size n futures Hb Hne Hh Hm Hcs res.
  pose proof (num_chunks_pos file_size chunk_size ltac:(lia) ltac:(lia)) as Hn.
  fold n in Hn.
  split; [|split; [lia|]].
  - subst res. unfold run.
    rewrite (download_from_s3_eq w s3_key destination_folder num_workers
               chunk_size_mb bucket) by done.
    unfold try_except.
    rewrite (body_chunked w s3_key destination_folder num_workers chunk_size_mb
               bucket file_size) by (done || fold chunk_size; lia).
    fold chunk_size n futures.
    match goal with
    | |- context [bind ?c ?k ?s] =>
        change (bind c k) with
          (chunk_phase w bucket s3_key
             (destination_path_of s3_key destination_folder) n
             (actual_workers_of num_workers n) futures);
        destruct (try_except
                    (chunk_phase w bucket s3_key
                       (destination_path_of s3_key destination_folder) n
                       (actual_workers_of num_workers n) futures)
                    (on_error bucket s3_key
                       (destination_path_of s3_key destination_folder)) s)
          as [r s1] eqn:Hrun
    end.
    pose proof Hrun as Hpost.
    apply chunk_phase_post in Hpost as (_ & tr1 & tr2 & Hout & Htr1 & Htr2).
    unfold try_except in Hrun. rewrite Hrun. simpl. rewrite Hout. simpl.
    rewrite List.filter_app.
    rewrite (filter_none is_pool tr1)
      by (eapply Forall_impl; [exact Htr1|]; by intros ev (_ & ? & _)).
    rewrite (filter_none is_pool tr2)
      by (eapply Forall_impl; [exact Htr2|]; by intros ev (? & _)).
    reflexivity.
  - intros sched p He.
    apply pool_exec_bound in He; simpl in *; lia.
Qed.

Lemma worker_count_clamped_witness :
  let w := World (Some "b") (fun _ _ => inr 4194304) (fun _ _ _ _ => inr [])
             (fun _ _ _ f => (f, None)) (fun _ => None) (fun _ _ => None)
             (fun _ _ _ => None) id in
  let res := run (download_from_s3 w "models/f.bin" "out" 100 1) ∅ in
  num_chunks_of 4194304 (chunk_size_of 1) = 4 /\
  List.filter is_pool (out res.2) = [EThreadPool 4].
Proof.
  intros w res. split; [reflexivity|].
  destruct (worker_count_clamped w "models/f.bin" "out" 100 1 ∅ "b" 4194304)
    as (H1 & _).
  - reflexivity.
  - discriminate.
  - reflexivity.
  - reflexivity.
  - vm_compute. split; [reflexivity|discriminate].
  - exact H1.
Defined.





(** ** What a successful run returns *)






(** ** The error messages *)




(** ** A chunk size that is not positive *)





(** ** Cleanup after a failure *)

Lemma bucket_unset_false (o : option string) :
  bucket_unset o = false -> exists b, o = Some b /\ b <> "".
Proof.
  destruct o as [b|]; simpl; [|discriminate].
  intros H. exists b. split; [done|]. by intros ->.
Qed.




(** ** What a failed run may have written *)







(** * Further properties of the code *)

(** ** The destination path (lines 42-43) *)


Lemma no_sep_no_leading_sep p : has_sep p = false -> starts_with_sep p = false.
Proof.
  destruct p as [|c r]; simpl; [done|]. by destruct (is_sep c).
Qed.


Lemma has_sep_append a b : has_sep (a +:+ b) = has_sep a || has_sep b.
Proof.
  induction a as [|c a IH]; simpl; [done|]. rewrite IH.
  by destruct (is_sep c).
Qed.

Lemma ends_with_sep_has_sep a : ends_with_sep a = true -> has_sep a = true.
Proof.
  induction a as [|c a IH]; simpl; [done|].
  destruct a as [|c' a']; [intros ->; done|].
  intros H. rewrite (IH H). by destruct (is_sep c).
Qed.

Lemma basename_after_sep d name :
  has_sep name = false -> basename (d +:+ "/" +:+ name) = name.
Proof.
  intros Hn. induction d as [|c d IH]; simpl.
  - change ("" +:+ name) with name. by rewrite Hn.
  - rewrite has_sep_append. simpl. rewrite orb_true_r. exact IH.
Qed.

Lemma basename_after_trailing_sep d name :
  has_sep name = false -> ends_with_sep d = true ->
  basename (d +:+ name) = name.
Proof.
  intros Hn. induction d as [|c d IH]; simpl; [done|].
  destruct d as [|c' d'].
  - intros Hc. simpl. change ("" +:+ name) with name. by rewrite Hn, Hc.
  - intros He. rewrite has_sep_append.
    rewrite (ends_with_sep_has_sep _ He). simpl. by apply IH.
Qed.


(** X2. Joining a folder with a name that holds no separator and taking
    the base name gives the name back; and the directory part of a key
    plays no role in the destination, so two keys with the same base
    name share one destination path. *)
Theorem basename_of_join (folder name : string) :
  has_sep name = false ->
  basename (path_join folder name) = name /\
  forall dir, destination_path_of (dir +:+ "/" +:+ name) folder
              = path_join folder name.
Proof.
  intros Hn. split.
  - unfold path_join. rewrite (no_sep_no_leading_sep _ Hn).
    destruct folder as [|c r] eqn:Hf.
    + simpl. change ("" +:+ name) with name. clear Hf.
      induction name as [|a name IH]; simpl in *; [done|].
      destruct (is_sep a); [discriminate|]. simpl in Hn. by rewrite Hn.
    + rewrite <- Hf. replace ((String.length folder =? 0)%nat) with false
        by (by subst folder).
      simpl. destruct (ends_with_sep folder) eqn:He.
      * by apply basename_after_trailing_sep.
      * by apply basename_after_sep.
  - intros dir. unfold destination_path_of.
    by rewrite basename_after_sep.
Qed.

Lemma basename_of_join_witness :
  basename (path_join "/workspace/models" "checkpoint.safetensors")
  = "checkpoint.safetensors" /\
  destination_path_of "a/checkpoint.safetensors" "/workspace/models"
  = destination_path_of "b/c/checkpoint.safetensors" "/workspace/models".
Proof.
  destruct (basename_of_join "/workspace/models" "checkpoint.safetensors")
    as [H1 H2]; [reflexivity|].
  split; [exact H1|].
  exact (eq_trans (H2 "a") (eq_sym (H2 "b/c"))).
Defined.

(** ** Chunk sizes (lines 70, 105-106) *)

(** X3. With [0 < chunk_size <= file_size], every chunk but the last is
    exactly [chunk_size] bytes long, the last holds what remains, which
    is at least one byte and at most [chunk_size], and every chunk lies
    within the object. *)
Theorem chunks_are_full_but_the_last (file_size chunk_size : Z) :
  0 < chunk_size -> chunk_size <= file_size ->
  let n := num_chunks_of file_size chunk_size in
  (forall i, 0 <= i < n - 1 ->
     chunk_length (chunk_task file_size chunk_size i) = chunk_size) /\
  chunk_length (chunk_task file_size chunk_size (n - 1))
  = file_size - (n - 1) * chunk_size /\
  0 < file_size - (n - 1) * chunk_size <= chunk_size /\
  forall i, 0 <= i < n ->
    0 <= start_byte (chunk_task file_size chunk_size i)
    <= end_byte (chunk_task file_size chunk_size i) /\
    end_byte (chunk_task file_size chunk_size i) < file_size.
Proof.
  intros Hc Hf n.
  pose proof (num_chunks_bounds file_size chunk_size Hc) as Hb.
  fold n in Hb. unfold chunk_length, chunk_task. simpl.
  repeat split; try nia.
Qed.

Lemma chunks_are_full_but_the_last_witness :
  map chunk_length
    (chunk_tasks 209715200 67108864 (num_chunks_of 209715200 67108864))
  = [67108864; 67108864; 67108864; 8388608] /\
  chunk_length (chunk_task 209715200 67108864 3) = 209715200 - 3 * 67108864.
Proof.
  split; [reflexivity|].
  apply (chunks_are_full_but_the_last 209715200 67108864); lia.
Defined.

(** ** How errors reach the caller (lines 38-39, 125-136) *)





(** ** [main] *)

Lemma missing_vars_spec environ v :
  In v (missing_vars environ) <->
  In v required_vars /\ env_unset environ v = true.
Proof. unfold missing_vars. apply filter_In. Qed.


(** X5. If any of the four required variables is absent from the
    environment or empty, [main] exits with status 1 before doing
    anything else: no call to S3, no change to the file system, and one
    line naming exactly the required variables that are absent or
    empty. *)
Theorem main_rejects_missing_variables (environ : gmap string string)
    (w : world) (args : cli_args) (f0 : gmap string bytes) (var : string) :
  In var required_vars -> env_unset environ var = true ->
  status (main environ w args f0) = 1 /\
  final (main environ w args f0) = State f0 [] /\
  printed (main environ w args f0)
  = ["Error: Missing required environment variables: "
     +:+ join ", " (missing_vars environ)] /\
  forall v, In v (missing_vars environ) <->
            In v required_vars /\ env_unset environ v = true.
Proof.
  intros Hin Hun.
  assert (In var (missing_vars environ)) as Hm
    by (apply missing_vars_spec; by split).
  unfold main. destruct (missing_vars environ) as [|v l] eqn:Hl.
  - destruct Hm.
  - do 3 (split; [reflexivity|]). intros v0. rewrite <- Hl.
    apply missing_vars_spec.
Qed.

Lemma main_rejects_missing_variables_witness :
  let environ : gmap string string :=
    {["RUNPOD_S3_BUCKET" := "b"; "RUNPOD_S3_ACCESS_KEY_ID" := "";
      "RUNPOD_S3_SECRET_ACCESS_KEY" := "s"]} in
  let r := main environ two_mib_store (CliArgs "models/f.bin" "out" None None)
             ∅ in
  status r = 1 /\
  printed r
  = ["Error: Missing required environment variables: RUNPOD_S3_ACCESS_KEY_ID, RUNPOD_S3_REGION"].
Proof.
  intros environ r.
  destruct (main_rejects_missing_variables environ two_mib_store
              (CliArgs "models/f.bin" "out" None None) ∅ "RUNPOD_S3_REGION")
    as (H1 & _ & H3 & _).
  - simpl. tauto.
  - reflexivity.
  - split; [exact H1|exact H3].
Defined.



(** ** The run of a chunked download, whatever the fetches answer *)

Section ChunkedRun.

Variable w : world.
Variables bucket s3_key dest : string.

Lemma write_parts_late path parts : forall s r s1,
  write_parts w path parts s = (r, s1) ->
  exists tr, out s1 = out s ++ tr /\ Forall (fun ev => after_tasks ev = true) tr.
Proof.
  induction parts as [|[i data] parts IH]; simpl; intros s r s1.
  - intros [= <- <-]. exists []. by rewrite app_nil_r.
  - unfold bind. rewrite write_file_eq.
    destruct (write w path (fs s) data).
    + intros [= <- <-]. simpl. eexists. split; [done|]. by repeat constructor.
    + intros H. apply IH in H as (tr & Hout & Htr). simpl in Hout.
      exists (EWrite path data :: tr). rewrite Hout, <- app_assoc.
      split; [done|]. by constructor.
Qed.

Lemma assemble_late path parts s r s1 :
  assemble w path parts s = (r, s1) ->
  exists tr, out s1 = out s ++ tr /\ Forall (fun ev => after_tasks ev = true) tr.
Proof.
  unfold assemble, bind, print. rewrite emit_eq, open_file_eq. simpl.
  destruct (open_wb w path (fs s)).
  - intros [= <- <-]. simpl. eexists. rewrite <- app_assoc.
    split; [done|]. by repeat constructor.
  - intros H. apply write_parts_late in H as (tr & Hout & Htr).
    simpl in Hout. eexists. rewrite Hout, <- !app_assoc.
    split; [done|]. simpl. by repeat constructor.
Qed.

Lemma on_error_late e s r s1 :
  on_error bucket s3_key dest e s = (r, s1) ->
  exists tr, out s1 = out s ++ tr /\ Forall (fun ev => after_tasks ev = true) tr.
Proof.
  destruct (is_ClientError e) eqn:He.
  - destruct e; try discriminate. rewrite on_error_client.
    intros [= <- <-]. exists []. by rewrite app_nil_r.
  - rewrite on_error_other by done.
    destruct (bool_decide (is_Some (fs s !! dest))); intros [= <- <-].
    + eexists. split; [done|]. by repeat constructor.
    + exists []. by rewrite app_nil_r.
Qed.

Lemma after_pool_late parts s r s1 :
  try_except (assemble w dest parts;; print (LogSuccess dest);; ret PyNone)
    (on_error bucket s3_key dest) s = (r, s1) ->
  exists tr, out s1 = out s ++ tr /\ Forall (fun ev => after_tasks ev = true) tr.
Proof.
  unfold try_except. unfold bind at 1.
  destruct (assemble w dest parts s) as [[[]|e] s2] eqn:Ha;
    apply assemble_late in Ha as (tr1 & Hout1 & Htr1).
  - unfold bind, print. rewrite emit_eq. simpl. intros [= <- <-]. simpl.
    exists (tr1 ++ [EPrint (LogSuccess dest)]).
    rewrite Hout1, <- app_assoc. split; [done|].
    apply Forall_app. split; [done|]. by repeat constructor.
  - intros H. apply on_error_late in H as (tr2 & Hout2 & Htr2).
    exists (tr1 ++ tr2). rewrite Hout2, Hout1, <- app_assoc.
    split; [done|]. by apply Forall_app.
Qed.

Lemma late_events tr :
  Forall (fun ev => after_tasks ev = true) tr ->
  List.filter is_range_fetch tr = [] /\ List.filter is_whole_fetch tr = [] /\
  List.filter is_pool tr = [] /\ progress_counts tr = [].
Proof.
  induction 1 as [|ev tr Hev _ (H1 & H2 & H3 & H4)]; [done|].
  destruct ev as [| | | | | | | |[]]; try discriminate; simpl; done.
Qed.


Lemma tasks_trace_progress n order : forall k,
  progress_counts (tasks_trace w bucket s3_key n order k)
  = seq (S k) (length (parts_of w bucket s3_key order)).
Proof.
  induction order as [|t order IH]; intros k; simpl; [done|].
  destruct (fetch w bucket s3_key t); simpl; by rewrite IH.
Qed.

Lemma progress_counts_app a b :
  progress_counts (a ++ b) = progress_counts a ++ progress_counts b.
Proof.
  induction a as [|ev a IH]; simpl; [done|].
  destruct ev as [| | | | | | | |[]]; simpl; by rewrite ?IH.
Qed.

End ChunkedRun.

(** A chunked download, once the pool is up: the tasks run to their end
    in completion order, then the first failure in submission order is
    handled, or the parts are assembled. *)
Lemma chunked_run_eq (w : world)
    (s3_key destination_folder : string) (num_workers chunk_size_mb : Z)
    (f0 : gmap string bytes) (bucket : string) (file_size : Z) :
  let chunk_size := chunk_size_of chunk_size_mb in
  let n := num_chunks_of file_size chunk_size in
  let mw := actual_workers_of num_workers n in
  let futures := chunk_tasks file_size chunk_size n in
  let order := completion_order w futures in
  let dest := destination_path_of s3_key destination_folder in
  let s2 :=
    State f0
      (preamble bucket s3_key destination_folder num_workers chunk_size_mb
       ++ [EHeadObject bucket s3_key; EPrint (LogFileSize file_size);
           EMakedirs destination_folder; EPrint (LogChunks n mw)]
       ++ EThreadPool mw :: tasks_trace w bucket s3_key n order 0) in
  environ_bucket w = Some bucket -> bucket <> "" ->
  head_object w bucket s3_key = inr file_size ->
  makedirs w destination_folder = None ->
  chunk_size <= file_size -> chunk_size <> 0 ->
  0 < mw ->
  order ≡ₚ futures ->
  run (download_from_s3 w s3_key destination_folder
         num_workers chunk_size_mb) f0
  = match first_failure w bucket s3_key futures with
    | Some e => on_error bucket s3_key dest e s2
    | None =>
        try_except
          (assemble w dest (parts_of w bucket s3_key order);;
           print (LogSuccess dest);; ret PyNone)
          (on_error bucket s3_key dest) s2
    end.
Proof.
  intros chunk_size n mw futures order dest s2 Hb Hne Hh Hm Hcs Hnz Hmw Hperm.
  unfold run.
  rewrite (download_from_s3_eq w s3_key destination_folder num_workers
             chunk_size_mb bucket) by done.
  unfold try_except.
  rewrite (body_chunked w s3_key destination_folder num_workers chunk_size_mb
             bucket file_size) by done.
  fold chunk_size n mw futures dest. unfold bind at 1.
  rewrite collect_parts_eq; [|apply chunk_tasks_NoDup|done|done].
  fold order. simpl fs. simpl out.
  replace (State f0 _) with s2
    by (unfold s2; simpl; by rewrite <- ?app_assoc).
  by destruct (first_failure w bucket s3_key futures).
Qed.

Lemma chunked_run_trace (w : world)
    (s3_key destination_folder : string) (num_workers chunk_size_mb : Z)
    (f0 : gmap string bytes) (bucket : string) (file_size : Z) :
  let chunk_size := chunk_size_of chunk_size_mb in
  let n := num_chunks_of file_size chunk_size in
  let mw := actual_workers_of num_workers n in
  let futures := chunk_tasks file_size chunk_size n in
  let order := completion_order w futures in
  environ_bucket w = Some bucket -> bucket <> "" ->
  head_object w bucket s3_key = inr file_size ->
  makedirs w destination_folder = None ->
  chunk_size <= file_size -> chunk_size <> 0 ->
  0 < mw ->
  order ≡ₚ futures ->
  exists tr,
    out (run (download_from_s3 w s3_key destination_folder
                num_workers chunk_size_mb) f0).2
    = (preamble bucket s3_key destination_folder num_workers chunk_size_mb
       ++ [EHeadObject bucket s3_key; EPrint (LogFileSize file_size);
           EMakedirs destination_folder; EPrint (LogChunks n mw);
           EThreadPool mw])
      ++ tasks_trace w bucket s3_key n order 0 ++ tr /\
    Forall (fun ev => after_tasks ev = true) tr.
Proof.
  intros chunk_size n mw futures order Hb Hne Hh Hm Hcs Hnz Hmw Hperm.
  rewrite (chunked_run_eq w s3_key destination_folder num_workers
             chunk_size_mb f0 bucket file_size) by done.
  fold chunk_size n mw futures order.
  destruct (first_failure w bucket s3_key futures) as [e|].
  - destruct (on_error _ _ _ _ _) as [r s1] eqn:Hr.
    apply on_error_late in Hr as (tr & Hout & Htr). exists tr.
    split; [|done]. simpl in *. rewrite Hout. simpl.
    by rewrite <- ?app_assoc.
  - destruct (try_except _ _ _) as [r s1] eqn:Hr.
    apply after_pool_late in Hr as (tr & Hout & Htr). exists tr.
    split; [|done]. simpl in *. rewrite Hout. simpl.
    by rewrite <- ?app_assoc.
Qed.






(** X9. The progress lines of a chunked download count the parts
    collected so far: their counters are 1, 2, 3, ... without gap or
    repeat, up to the number of fetches that returned, in whatever
    order the fetches finish; a failed fetch adds no progress line. *)
Theorem progress_counts_are_consecutive (w : world)
    (s3_key destination_folder : string) (num_workers chunk_size_mb : Z)
    (f0 : gmap string bytes) (bucket : string) (file_size : Z) :
  let chunk_size := chunk_size_of chunk_size_mb in
  let n := num_chunks_of file_size chunk_size in
  let futures := chunk_tasks file_size chunk_size n in
  let order := completion_order w futures in
  environ_bucket w = Some bucket -> bucket <> "" ->
  head_object w bucket s3_key = inr file_size ->
  makedirs w destination_folder = None ->
  0 < chunk_size <= file_size ->
  1 <= num_workers ->
  pool_completes (actual_workers_of num_workers n) futures order ->
  let res := run (download_from_s3 w s3_key destination_folder
                    num_workers chunk_size_mb) f0 in
  progress_counts (out res.2)
  = seq 1 (length (parts_of w bucket s3_key order)) /\
  ((forall t, t ∈ futures -> exists d, fetch w bucket s3_key t = inr d) ->
   progress_counts (out res.2) = seq 1 (Z.to_nat n)).
Proof.
  intros chunk_size n futures order Hb Hne Hh Hm Hcs Hnw Hpool res.
  pose proof (num_chunks_pos file_size chunk_size ltac:(lia) ltac:(lia)) as Hn.
  fold n in Hn.
  pose proof (pool_completes_perm _ _ _ Hpool) as Hperm.
  destruct (chunked_run_trace w s3_key destination_folder num_workers
              chunk_size_mb f0 bucket file_size) as (tr & Hout & Htr);
    [done|done|done|done|fold chunk_size; lia|fold chunk_size; lia
    |fold chunk_size n; unfold actual_workers_of; lia|done|].
  fold chunk_size n futures order res in Hout.
  apply late_events in Htr as (_ & _ & _ & H4).
  assert (progress_counts (out res.2)
          = seq 1 (length (parts_of w bucket s3_key order))) as Hp.
  { rewrite Hout, !progress_counts_app, tasks_trace_progress, H4. simpl.
    by rewrite app_nil_r. }
  split; [exact Hp|]. intros Hok. rewrite Hp. f_equal.
  rewrite parts_of_payload by (intros t Ht; apply Hok; by rewrite <- Hperm).
  rewrite length_map, (Permutation_length Hperm).
  unfold futures, chunk_tasks. by rewrite length_map, range_length.
Qed.

Lemma progress_counts_are_consecutive_witness :
  let w := World (Some "b") (fun _ _ => inr 3145728)
             (fun _ _ s _ =>
                if s =? 1048576 then inl (OSError "Connection reset")
                else inr [Byte.x01])
             (fun _ _ _ f => (f, None)) (fun _ => None) (fun _ _ => None)
             (fun _ _ _ => None) (@rev task) in
  let res := run (download_from_s3 w "models/f.bin" "out" 3 1) ∅ in
  progress_counts (out res.2) = [1; 2]%nat.
Proof.
  intros w res.
  destruct (progress_counts_are_consecutive w "models/f.bin" "out" 3 1 ∅
              "b" 3145728) as (H1 & _).
  - reflexivity.
  - discriminate.
  - reflexivity.
  - reflexivity.
  - vm_compute. split; [reflexivity|discriminate].
  - lia.
  - exists [Start; Start; Start; Finish 2%nat; Finish 1%nat; Finish 0%nat].
    vm_compute. reflexivity.
  - exact H1.
Defined.

(** ** Boundaries of the plan *)

Lemma num_chunks_exact chunk_size :
  0 < chunk_size -> num_chunks_of chunk_size chunk_size = 1.
Proof.
  intros Hc. pose proof (num_chunks_bounds chunk_size chunk_size Hc). nia.
Qed.

(** X10. An object exactly one chunk long is not downloaded directly:
    the test of line 63 is strict, so the download takes the chunked
    path with a pool of one worker and a single ranged fetch for bytes
    0 to [file_size - 1], and no whole-object fetch. *)
Theorem object_of_exactly_one_chunk (w : world)
    (s3_key destination_folder : string) (num_workers chunk_size_mb : Z)
    (f0 : gmap string bytes) (bucket : string) :
  let chunk_size := chunk_size_of chunk_size_mb in
  environ_bucket w = Some bucket -> bucket <> "" ->
  head_object w bucket s3_key = inr chunk_size ->
  makedirs w destination_folder = None ->
  0 < chunk_size ->
  1 <= num_workers ->
  completion_order w [Task 0 0 (chunk_size - 1)]
  ≡ₚ [Task 0 0 (chunk_size - 1)] ->
  let res := run (download_from_s3 w s3_key destination_folder
                    num_workers chunk_size_mb) f0 in
  List.filter is_whole_fetch (out res.2) = [] /\
  List.filter is_range_fetch (out res.2)
  = [EGetObject bucket s3_key 0 (chunk_size - 1)] /\
  List.filter is_pool (out res.2) = [EThreadPool 1].
Proof.
  intros chunk_size Hb Hne Hh Hm Hcs Hnw Hperm res.
  pose proof (num_chunks_exact chunk_size Hcs) as Hn.
  assert (chunk_tasks chunk_size chunk_size 1 = [Task 0 0 (chunk_size - 1)])
    as Hfut.
  { unfold chunk_tasks, chunk_task. simpl. do 2 f_equal. lia. }
  destruct (chunked_run_trace w s3_key destination_folder num_workers
              chunk_size_mb f0 bucket chunk_size) as (tr & Hout & Htr);
    [done|done|done|done|fold chunk_size; lia|fold chunk_size; lia
    |fold chunk_size; rewrite Hn; unfold actual_workers_of; lia
    |fold chunk_size; by rewrite Hn, Hfut|].
  fold chunk_size res in Hout. rewrite Hn, Hfut in Hout.
  apply Permutation_singleton_r in Hperm. rewrite Hperm in Hout.
  replace (actual_workers_of num_workers 1) with 1 in Hout
    by (unfold actual_workers_of; lia).
  apply late_events in Htr as (H1 & H2 & H3 & _).
  rewrite Hout, !List.filter_app, H1, H2, H3. simpl.
  unfold fetch. simpl.
  by destruct (get_object w bucket s3_key 0 (chunk_size - 1)).
Qed.

Lemma object_of_exactly_one_chunk_witness :
  let w := World (Some "b") (fun _ _ => inr 1048576)
             (fun _ _ _ _ => inr [Byte.x01])
             (fun _ _ _ f => (f, None)) (fun _ => None) (fun _ _ => None)
             (fun _ _ _ => None) id in
  let res := run (download_from_s3 w "models/f.bin" "out" 12 1) ∅ in
  List.filter is_range_fetch (out res.2)
  = [EGetObject "b" "models/f.bin" 0 1048575] /\
  List.filter is_whole_fetch (out res.2) = [].
Proof.
  intros w res.
  destruct (object_of_exactly_one_chunk w "models/f.bin" "out" 12 1 ∅ "b")
    as (H1 & H2 & _).
  - reflexivity.
  - discriminate.
  - reflexivity.
  - reflexivity.
  - reflexivity.
  - lia.
  - reflexivity.
  - split; [exact H2|exact H1].
Defined.



Lemma num_chunks_negative file_size chunk_size :
  chunk_size <= -2 -> 0 <= file_size <= 1 ->
  num_chunks_of file_size chunk_size = 1.
Proof.
  intros Hc Hf. unfold num_chunks_of.
  pose proof (Z.div_mod (file_size + chunk_size - 1) chunk_size ltac:(lia)) as Hd.
  pose proof (Z.mod_neg_bound (file_size + chunk_size - 1) chunk_size
                ltac:(lia)) as Hm.
  nia.
Qed.

(** X12. A negative chunk size is not rejected either.  For an object
    of 0 or 1 bytes the plan then has one chunk whose range runs from
    byte 0 to the negative offset [chunk_size - 1]: that one ranged
    request is sent, no whole-object fetch is made, and if the store
    answers it the download returns with the answer as the file. *)
Theorem negative_chunk_size_requests_reversed_range (w : world)
    (s3_key destination_folder : string) (num_workers chunk_size_mb : Z)
    (f0 : gmap string bytes) (bucket : string) (file_size : Z) :
  let chunk_size := chunk_size_of chunk_size_mb in
  let dest := destination_path_of s3_key destination_folder in
  environ_bucket w = Some bucket -> bucket <> "" ->
  head_object w bucket s3_key = inr file_size ->
  makedirs w destination_folder = None ->
  chunk_size_mb < 0 ->
  0 <= file_size <= 1 ->
  1 <= num_workers ->
  completion_order w [Task 0 0 (chunk_size - 1)]
  ≡ₚ [Task 0 0 (chunk_size - 1)] ->
  let res := run (download_from_s3 w s3_key destination_folder
                    num_workers chunk_size_mb) f0 in
  chunk_size - 1 < 0 /\
  List.filter is_range_fetch (out res.2)
  = [EGetObject bucket s3_key 0 (chunk_size - 1)] /\
  List.filter is_whole_fetch (out res.2) = [] /\
  forall d,
    get_object w bucket s3_key 0 (chunk_size - 1) = inr d ->
    (forall f, open_wb w dest f = None) ->
    (forall f x, write w dest f x = None) ->
    res.1 = Return PyNone /\ fs res.2 = <[dest := d]> f0.
Proof.
  intros chunk_size dest Hb Hne Hh Hm Hmb Hf Hnw Hperm res.
  assert (chunk_size <= -2) as Hcs by (unfold chunk_size, chunk_size_of; lia).
  pose proof (num_chunks_negative file_size chunk_size Hcs Hf) as Hn.
  assert (chunk_tasks file_size chunk_size 1 = [Task 0 0 (chunk_size - 1)])
    as Hfut.
  { unfold chunk_tasks, chunk_task. simpl. do 2 f_equal. lia. }
  split; [lia|].
  destruct (chunked_run_trace w s3_key destination_folder num_workers
              chunk_size_mb f0 bucket file_size) as (tr & Hout & Htr);
    [done|done|done|done|fold chunk_size; lia|fold chunk_size; lia
    |fold chunk_size; rewrite Hn; unfold actual_workers_of; lia
    |fold chunk_size; by rewrite Hn, Hfut|].
  fold chunk_size res in Hout. rewrite Hn, Hfut in Hout.
  pose proof Hperm as Hsingle.
  apply Permutation_singleton_r in Hsingle. rewrite Hsingle in Hout.
  apply late_events in Htr as (H1 & H2 & _ & _).
  split; [|split].
  - rewrite Hout, !List.filter_app, H1. simpl. unfold fetch. simpl.
    by destruct (get_object w bucket s3_key 0 (chunk_size - 1)).
  - rewrite Hout, !List.filter_app, H2. simpl. unfold fetch. simpl.
    by destruct (get_object w bucket s3_key 0 (chunk_size - 1)).
  - intros d Hd Hopen Hwrite.
    assert (res = run (download_from_s3 w s3_key destination_folder
                         num_workers chunk_size_mb) f0) as Hres by done.
    rewrite (chunked_run_ok w s3_key destination_folder num_workers
               chunk_size_mb f0 bucket file_size) in Hres;
      [|done|done|done|done|fold chunk_size; lia|fold chunk_size; lia
       |fold chunk_size; rewrite Hn; unfold actual_workers_of; lia
       | |done|done|fold chunk_size; by rewrite Hn, Hfut].
    + fold chunk_size dest in Hres. rewrite Hn, Hfut in Hres.
      rewrite Hres. simpl. split; [done|].
      unfold payload, fetch. simpl. rewrite Hd. by rewrite app_nil_r.
    + fold chunk_size. rewrite Hn, Hfut. intros t Ht.
      apply list_elem_of_singleton in Ht as ->. unfold fetch. simpl. eauto.
Qed.

Lemma negative_chunk_size_requests_reversed_range_witness :
  let w := World (Some "b") (fun _ _ => inr 1)
             (fun _ _ _ _ => inr [Byte.x07])
             (fun _ _ _ f => (f, None)) (fun _ => None) (fun _ _ => None)
             (fun _ _ _ => None) id in
  let res := run (download_from_s3 w "models/f.bin" "out" 12 (-1)) ∅ in
  List.filter is_range_fetch (out res.2)
  = [EGetObject "b" "models/f.bin" 0 (-1048577)] /\
  res.1 = Return PyNone /\
  fs res.2 = <["out/f.bin" := [Byte.x07]]> ∅.
Proof.
  intros w res.
  destruct (negative_chunk_size_requests_reversed_range w "models/f.bin"
              "out" 12 (-1) ∅ "b" 1) as (_ & H2 & _ & H4).
  - reflexivity.
  - discriminate.
  - reflexivity.
  - reflexivity.
  - lia.
  - lia.
  - lia.
  - reflexivity.
  - split; [exact H2|].
    apply (H4 [Byte.x07]); [reflexivity|intros f; reflexivity
                            |intros f x; reflexivity].
Defined.

(** ** Files other than the destination *)

Lemma download_body_frame w bucket s3_key destination_folder
    num_workers chunk_size_mb s r s1 :
  let dest := destination_path_of s3_key destination_folder in
  (forall f p, p <> dest ->
     (download_file w bucket s3_key dest f).1 !! p = f !! p) ->
  download_body w bucket s3_key destination_folder dest
    num_workers chunk_size_mb s = (r, s1) ->
  forall p, p <> dest -> fs s1 !! p = fs s !! p.
Proof.
  intros dest Hdl.
  set (chunk_size := chunk_size_of chunk_size_mb).
  destruct (head_object w bucket s3_key) as [e|file_size] eqn:Hh.
  { rewrite (body_head_fails w s3_key destination_folder num_workers
               chunk_size_mb bucket e) by done.
    by intros [= <- <-]. }
  destruct (makedirs w destination_folder) as [e|] eqn:Hm.
  { rewrite (body_makedirs_fails w s3_key destination_folder num_workers
               chunk_size_mb bucket file_size e) by done.
    by intros [= <- <-]. }
  destruct (Z.lt_ge_cases file_size chunk_size) as [Hlt|Hge].
  { rewrite (body_direct w s3_key destination_folder num_workers
               chunk_size_mb bucket file_size) by done.
    intros [= <- <-] p Hp. simpl. by apply Hdl. }
  destruct (Z.eq_dec chunk_size 0) as [Hz|Hnz].
  { rewrite (body_zero_chunk_size w s3_key destination_folder num_workers
               chunk_size_mb bucket file_size) by (done || lia).
    by intros [= <- <-]. }
  rewrite (body_chunked w s3_key destination_folder num_workers
             chunk_size_mb bucket file_size) by done.
  fold chunk_size dest. unfold bind at 1.
  destruct (collect_parts _ _ _ _ _ _ _) as [[parts|e] s2] eqn:Hc;
    apply collect_parts_post in Hc as (Hfs & _); simpl in Hfs.
  - unfold bind at 1.
    destruct (assemble w dest parts s2) as [[[]|e] s3] eqn:Ha;
      apply assemble_post in Ha as (Hfr & _).
    + unfold bind, print. rewrite emit_eq. intros [= <- <-] p Hp. simpl.
      by rewrite Hfr, Hfs.
    + intros [= <- <-] p Hp. by rewrite Hfr, Hfs.
  - intros [= <- <-] p Hp. by rewrite Hfs.
Qed.

(** X13. Provided the SDK's [download_file] changes no file but the one
    it is told to write, [download_from_s3] changes no file other than
    the destination path, whether it returns or raises. *)
Theorem download_touches_only_destination (w : world)
    (s3_key destination_folder : string) (num_workers chunk_size_mb : Z)
    (f0 : gmap string bytes) :
  let dest := destination_path_of s3_key destination_folder in
  (forall b f p, p <> dest ->
     (download_file w b s3_key dest f).1 !! p = f !! p) ->
  forall p, p <> dest ->
    fs (run (download_from_s3 w s3_key destination_folder
               num_workers chunk_size_mb) f0).2 !! p = f0 !! p.
Proof.
  intros dest Hdl p Hp. unfold run.
  destruct (bucket_unset (environ_bucket w)) eqn:Hu.
  { unfold download_from_s3. by rewrite Hu. }
  apply bucket_unset_false in Hu as (bucket & Hb & Hne).
  rewrite (download_from_s3_eq w s3_key destination_folder num_workers
             chunk_size_mb bucket) by done.
  fold dest. unfold try_except.
  destruct (download_body _ _ _ _ _ _ _ _) as [[v|e] s'] eqn:Hbody;
    pose proof (download_body_frame w bucket s3_key destination_folder
                  num_workers chunk_size_mb _ _ _
                  (fun f q Hq => Hdl bucket f q Hq) Hbody p Hp) as Hfr;
    simpl in Hfr.
  - simpl. exact Hfr.
  - destruct (on_error bucket s3_key dest e s') as [r s1] eqn:Hr.
    apply on_error_post in Hr as (_ & [Hfs|Hfs] & _); simpl; rewrite Hfs.
    + exact Hfr.
    + rewrite lookup_delete_ne by done. exact Hfr.
Qed.

Lemma download_touches_only_destination_witness :
  let w := one_object_store "b" "models/f.bin" [Byte.x01; Byte.x02] id in
  let f0 : gmap string bytes := {["out/other.bin" := [Byte.x09]]} in
  fs (run (download_from_s3 w "models/f.bin" "out" 12 64) f0).2
    !! "out/other.bin" = Some [Byte.x09].
Proof.
  intros w f0.
  rewrite (download_touches_only_destination w "models/f.bin" "out" 12 64 f0).
  - reflexivity.
  - intros b f p Hp. simpl.
    destruct (String.eqb b "b"); simpl; [by apply lookup_insert_ne|done].
  - discriminate.
Defined.

(** ** Failures before and during the direct download *)




